(** * SortedIntArray (g/container/garray/garray_sorted_int.go)

    A shallow embedding of the sorted integer array of the gf framework and
    the verification of its specification.  Every method of the Go type is a
    function on an explicit object state; panics of the Go runtime
    (index or slice bounds out of range, negative [make] length) and a
    goroutine blocking on a lock it already holds are explicit outcomes. *)

From Stdlib Require Import ZArith Lia.
From stdpp Require Import base list gmap sorting.

Local Open Scope Z_scope.

(** ** Go's [int] on a 64-bit platform *)

Module GoInt.

Definition min_int : Z := - 2 ^ 63.
Definition max_int : Z := 2 ^ 63 - 1.

(** Two's complement wrap-around of an arithmetic result. *)
Definition wrap (z : Z) : Z := (z + 2 ^ 63) mod 2 ^ 64 - 2 ^ 63.

Definition add (x y : Z) : Z := wrap (x + y).
Definition sub (x y : Z) : Z := wrap (x - y).
Definition mul (x y : Z) : Z := wrap (x * y).

Definition in_range (z : Z) : Prop := min_int <= z <= max_int.

End GoInt.

(** ** Outcomes of a call

    [Panic] is a run-time panic of Go, [Deadlock] a lock acquisition that can
    never succeed because the caller itself holds the lock, and [OutOfFuel]
    the exhaustion of the iteration bound of a modelled [for] loop (shown
    unreachable for the loops the theorems are about). *)

Inductive outcome (A : Type) : Type :=
| Ok (x : A)
| Panic
| Deadlock
| OutOfFuel.

Arguments Ok {A} x.
Arguments Panic {A}.
Arguments Deadlock {A}.
Arguments OutOfFuel {A}.

Definition bind {A B : Type} (m : outcome A) (k : A -> outcome B) : outcome B :=
  match m with
  | Ok x => k x
  | Panic => Panic
  | Deadlock => Deadlock
  | OutOfFuel => OutOfFuel
  end.

Notation "'let*' x ':=' m 'in' k" := (bind m (fun x => k))
  (at level 10, x pattern, m at level 100, k at level 200).

(** ** Go slices, by contents

    A slice is modelled by the list of its elements.  Every slice expression
    of the source has its upper bound clamped to the length (or defaulted to
    it) before it is evaluated, so the capacity beyond the length is never
    addressed and the bounds check is the one against the length. *)

Definition len {A : Type} (s : list A) : Z := Z.of_nat (length s).

(** [s[i]] *)
Definition index (s : list Z) (i : Z) : outcome Z :=
  if (0 <=? i) && (i <? len s) then
    match s !! Z.to_nat i with
    | Some x => Ok x
    | None => Panic
    end
  else Panic.

(** [s[lo:hi]] *)
Definition slice (s : list Z) (lo hi : Z) : outcome (list Z) :=
  if (0 <=? lo) && (lo <=? hi) && (hi <=? len s) then
    Ok (take (Z.to_nat (hi - lo)) (drop (Z.to_nat lo) s))
  else Panic.

(** [s[lo:]] *)
Definition slice_from (s : list Z) (lo : Z) : outcome (list Z) :=
  slice s lo (len s).

(** [s[:hi]] *)
Definition slice_to (s : list Z) (hi : Z) : outcome (list Z) :=
  slice s 0 hi.

(** The longest slice of 8-byte integers a 64-bit address space can hold;
    [make] panics beyond it ("len out of range") and on a negative length. *)
Definition max_slice_len : Z := 2 ^ 61.

(** [make([]int, n)] *)
Definition make (n : Z) : outcome (list Z) :=
  if (0 <=? n) && (n <=? max_slice_len) then Ok (replicate (Z.to_nat n) 0)
  else Panic.

(** [copy(dst, src)]: the contents of [dst] afterwards. *)
Definition copy (dst src : list Z) : list Z :=
  take (length dst) src ++ drop (length src) dst.

(** [dst[i] = x] *)
Definition store (dst : list Z) (i : Z) (x : Z) : outcome (list Z) :=
  if (0 <=? i) && (i <? len dst) then Ok (<[Z.to_nat i := x]> dst)
  else Panic.

(** [sort.Ints]: the ascending rearrangement of the elements (the result of
    sorting integers does not depend on the algorithm). *)
Definition sort_Ints (s : list Z) : list Z := merge_sort Z.le s.

(** ** The lock (package g/internal/rwmutex) *)

Module rwmutex.

(** Modelled from the spec: package [g/internal/rwmutex] is not part of the
    source file.  Section 5 of the specification and the constructors' doc
    comments fix its behaviour: the optional [unsafe] argument switches the
    locking off ("false in default, means concurrent-safe in default"); in
    safe mode readers share the lock and a writer excludes everybody; in
    unsafe mode no locking is performed unless the call forces it. *)
Record RWMutex : Type := {
  safe : bool;
  writer : bool;
  readers : nat
}.

Definition New (unsafe : list bool) : RWMutex :=
  {| safe := match unsafe with
             | u :: _ => negb u
             | [] => true
             end;
     writer := false;
     readers := 0 |}.

Definition IsSafe (m : RWMutex) : bool := safe m.

Definition forced (force : list bool) : bool :=
  match force with
  | f :: _ => f
  | [] => false
  end.

Definition Lock (force : list bool) (m : RWMutex) : outcome RWMutex :=
  if safe m || forced force then
    if writer m || negb (Nat.eqb (readers m) 0) then Deadlock
    else Ok {| safe := safe m; writer := true; readers := readers m |}
  else Ok m.

Definition Unlock (force : list bool) (m : RWMutex) : outcome RWMutex :=
  if safe m || forced force then
    if writer m
    then Ok {| safe := safe m; writer := false; readers := readers m |}
    else Panic
  else Ok m.

Definition RLock (force : list bool) (m : RWMutex) : outcome RWMutex :=
  if safe m || forced force then
    if writer m then Deadlock
    else Ok {| safe := safe m; writer := false; readers := S (readers m) |}
  else Ok m.

Definition RUnlock (force : list bool) (m : RWMutex) : outcome RWMutex :=
  if safe m || forced force then
    match readers m with
    | O => Panic
    | S n => Ok {| safe := safe m; writer := writer m; readers := n |}
    end
  else Ok m.

(** Nobody holds the lock. *)
Definition free (m : RWMutex) : Prop :=
  writer m = false /\ readers m = 0%nat.

End rwmutex.

(** ** The structure *)

Record SortedIntArray : Type := {
  mu : rwmutex.RWMutex;
  array : list Z;
  unique : bool;
  compareFunc : Z -> Z -> Z
}.

Definition set_mu (m : rwmutex.RWMutex) (a : SortedIntArray) : SortedIntArray :=
  {| mu := m; array := array a; unique := unique a;
     compareFunc := compareFunc a |}.

Definition set_array (s : list Z) (a : SortedIntArray) : SortedIntArray :=
  {| mu := mu a; array := s; unique := unique a;
     compareFunc := compareFunc a |}.

Definition set_unique (u : bool) (a : SortedIntArray) : SortedIntArray :=
  {| mu := mu a; array := array a; unique := u;
     compareFunc := compareFunc a |}.

(** [a.mu.Lock()], [a.mu.Unlock()], [a.mu.RLock()], [a.mu.RUnlock()] *)
Definition mu_Lock (a : SortedIntArray) : outcome SortedIntArray :=
  let* m := rwmutex.Lock [] (mu a) in Ok (set_mu m a).

Definition mu_Unlock (a : SortedIntArray) : outcome SortedIntArray :=
  let* m := rwmutex.Unlock [] (mu a) in Ok (set_mu m a).

Definition mu_RLock (a : SortedIntArray) : outcome SortedIntArray :=
  let* m := rwmutex.RLock [] (mu a) in Ok (set_mu m a).

Definition mu_RUnlock (a : SortedIntArray) : outcome SortedIntArray :=
  let* m := rwmutex.RUnlock [] (mu a) in Ok (set_mu m a).

(** The comparison closure installed by [NewSortedIntArraySize]. *)
Definition defaultCompare (v1 v2 : Z) : Z :=
  if v1 <? v2 then -1 else if v1 >? v2 then 1 else 0.

(** [make([]int, 0, cap)] panics on a negative or oversized capacity. *)
Definition NewSortedIntArraySize (cap : Z) (unsafe : list bool)
  : outcome SortedIntArray :=
  if (0 <=? cap) && (cap <=? max_slice_len) then
    Ok {| mu := rwmutex.New unsafe;
          array := [];
          unique := false;
          compareFunc := defaultCompare |}
  else Panic.

Definition NewSortedIntArray (unsafe : list bool) : outcome SortedIntArray :=
  NewSortedIntArraySize 0 unsafe.

Definition NewSortedIntArrayFrom (s : list Z) (unsafe : list bool)
  : outcome SortedIntArray :=
  let* a := NewSortedIntArraySize 0 unsafe in
  let a := set_array s a in
  Ok (set_array (sort_Ints (array a)) a).

(** *** Binary search

    The loop [for min <= max].  [min], [max] and [mid] are indices of the
    array, below its length, and a slice of integers has fewer than 2^61
    elements, so [min + max] does not wrap around.  The iteration bound
    [fuel] is the length of the array; the window [min..max] shrinks at
    every iteration. *)
Fixpoint binSearch_loop (cmpf : Z -> Z -> Z) (s : list Z) (value : Z)
    (fuel : nat) (min max mid cmp : Z) {struct fuel} : outcome (Z * Z) :=
  if min <=? max then
    match fuel with
    | O => OutOfFuel
    | S fuel' =>
        let mid := (min + max) ÷ 2 in
        let* x := index s mid in
        let cmp := cmpf value x in
        if cmp <? 0 then binSearch_loop cmpf s value fuel' min (mid - 1) mid cmp
        else if cmp >? 0 then
               binSearch_loop cmpf s value fuel' (mid + 1) max mid cmp
        else Ok (mid, cmp)
    end
  else Ok (mid, cmp).

Definition binSearch (value : Z) (lock : bool) (a : SortedIntArray)
  : outcome (Z * Z * SortedIntArray) :=
  if len (array a) =? 0 then Ok (-1, -2, a)
  else
    let* a := (if lock then mu_RLock a else Ok a) in
    let* r := binSearch_loop (compareFunc a) (array a) value
                (length (array a)) 0 (len (array a) - 1) 0 (-2) in
    let* a := (if lock then mu_RUnlock a else Ok a) in
    Ok (r.1, r.2, a).

(** [index, _ = a.binSearch(value, true)] *)
Definition Search (value : Z) (a : SortedIntArray)
  : outcome (Z * SortedIntArray) :=
  let* r := binSearch value true a in
  Ok (r.1.1, r.2).

(** [return a.Search(value) == 0] *)
Definition Contains (value : Z) (a : SortedIntArray)
  : outcome (bool * SortedIntArray) :=
  let* r := Search value a in
  Ok (r.1 =? 0, r.2).

(** *** Add *)

Fixpoint Add_loop (values : list Z) (a : SortedIntArray)
  : outcome SortedIntArray :=
  match values with
  | [] => Ok a
  | value :: rest =>
      let* r := binSearch value false a in
      let index := r.1.1 in
      let cmp := r.1.2 in
      let a := r.2 in
      if unique a && (cmp =? 0) then Add_loop rest a
      else if index <? 0 then Add_loop rest (set_array (array a ++ [value]) a)
      else
        let index := if cmp >? 0 then index + 1 else index in
        let* tail := slice_from (array a) index in
        let rear := [] ++ tail in
        let* front := slice (array a) 0 index in
        let a := set_array (front ++ [value]) a in
        Add_loop rest (set_array (array a ++ rear) a)
  end.

Definition Add (values : list Z) (a : SortedIntArray)
  : outcome SortedIntArray :=
  if len values =? 0 then Ok a
  else
    let* a := mu_Lock a in
    let* a := Add_loop values a in
    mu_Unlock a.

(** *** Unique and SetUnique

    The loop [for { if i == len(a.array) - 1 { break } ... }].  Every
    iteration either drops one element or advances [i], so one more than the
    length of the array bounds the number of iterations. *)
Fixpoint Unique_loop (cmpf : Z -> Z -> Z) (fuel : nat) (s : list Z) (i : Z)
    {struct fuel} : outcome (list Z) :=
  match fuel with
  | O => OutOfFuel
  | S fuel' =>
      if i =? len s - 1 then Ok s
      else
        let* x := index s i in
        let* y := index s (i + 1) in
        if cmpf x y =? 0 then
          let* front := slice_to s (i + 1) in
          let* back := slice_from s (i + 1 + 1) in
          Unique_loop cmpf fuel' (front ++ back) i
        else Unique_loop cmpf fuel' s (i + 1)
  end.

Definition Unique (a : SortedIntArray) : outcome SortedIntArray :=
  let* a := mu_Lock a in
  let* s := Unique_loop (compareFunc a) (S (length (array a))) (array a) 0 in
  let a := set_array s a in
  mu_Unlock a.

Definition SetUnique (u : bool) (a : SortedIntArray)
  : outcome SortedIntArray :=
  let oldUnique := unique a in
  let a := set_unique u a in
  if u && negb (Bool.eqb oldUnique u) then Unique a else Ok a.

(** *** Bulk extraction

    A result of type [option (list Z)] is a Go slice that may be [nil]:
    [None] is the literal [nil] of the source, [Some s] a slice with the
    elements [s]. *)

Definition PopLefts (size : Z) (a : SortedIntArray)
  : outcome (list Z * SortedIntArray) :=
  let* a := mu_Lock a in
  let length := len (array a) in
  let size := if size >? length then length else size in
  let* value := slice (array a) 0 size in
  let* rest := slice_from (array a) size in
  let a := set_array rest a in
  let* a := mu_Unlock a in
  Ok (value, a).

Definition PopRights (size : Z) (a : SortedIntArray)
  : outcome (list Z * SortedIntArray) :=
  let* a := mu_Lock a in
  let index := GoInt.sub (len (array a)) size in
  let index := if index <? 0 then 0 else index in
  let* value := slice_from (array a) index in
  let* rest := slice_to (array a) index in
  let a := set_array rest a in
  let* a := mu_Unlock a in
  Ok (value, a).

Definition Range (start end_ : Z) (a : SortedIntArray)
  : outcome (option (list Z) * SortedIntArray) :=
  let* a := mu_RLock a in
  let length := len (array a) in
  if (start >? length) || (start >? end_) then
    let* a := mu_RUnlock a in Ok (None, a)
  else
    let start := if start <? 0 then 0 else start in
    let end_ := if end_ >? length then length else end_ in
    if rwmutex.IsSafe (mu a) then
      let* a := mu_RLock a in
      let* dst := make (GoInt.sub end_ start) in
      let* src := slice (array a) start end_ in
      let dst := copy dst src in
      let* a := mu_RUnlock a in
      let* a := mu_RUnlock a in
      Ok (Some dst, a)
    else
      let* r := slice (array a) start end_ in
      let* a := mu_RUnlock a in
      Ok (Some r, a).

Definition SubSlice (offset size : Z) (a : SortedIntArray)
  : outcome (option (list Z) * SortedIntArray) :=
  let* a := mu_RLock a in
  if offset >? len (array a) then
    let* a := mu_RUnlock a in Ok (None, a)
  else
    let size := if GoInt.add offset size >? len (array a)
                then GoInt.sub (len (array a)) offset else size in
    if rwmutex.IsSafe (mu a) then
      let* s := make size in
      let* src := slice_from (array a) offset in
      let s := copy s src in
      let* a := mu_RUnlock a in
      Ok (Some s, a)
    else
      let* r := slice_from (array a) offset in
      let* a := mu_RUnlock a in
      Ok (Some r, a).

(** [for i, v := range grand.Perm(len(a.array))].  The permutation drawn by
    package [grand] is an input of the model. *)
Fixpoint Rand_loop (s : list Z) (size : Z) (perm : list Z) (i : Z)
    (n : list Z) : outcome (list Z) :=
  match perm with
  | [] => Ok n
  | v :: perm' =>
      let* x := index s v in
      let* n := store n i x in
      if i =? GoInt.sub size 1 then Ok n
      else Rand_loop s size perm' (i + 1) n
  end.

Definition Rand (size : Z) (perm : list Z) (a : SortedIntArray)
  : outcome (list Z * SortedIntArray) :=
  let* a := mu_RLock a in
  let size := if size >? len (array a) then len (array a) else size in
  let* n := make size in
  let* n := Rand_loop (array a) size perm 0 n in
  let* a := mu_RUnlock a in
  Ok (n, a).

(** *** Chunk

    [int(math.Ceil(float64(length) / float64(size)))] with [size >= 1]: both
    conversions and the rounding of the quotient keep the ceiling exact for a
    length below 2^53, which every slice of the address space satisfies; the
    model is the integer ceiling.  The products [(i + 1) * size] and
    [i * size] involve the caller's [size] and wrap around. *)
Definition ceil_div (length size : Z) : Z := (length + size - 1) / size.

(** [n = append(n, c)] on a possibly nil [n]. *)
Definition append_chunk (n : option (list (list Z))) (c : list Z)
  : option (list (list Z)) :=
  match n with
  | None => Some [c]
  | Some cs => Some (cs ++ [c])
  end.

Fixpoint Chunk_loop (s : list Z) (size length : Z) (chunks : nat) (i : Z)
    (n : option (list (list Z))) : outcome (option (list (list Z))) :=
  match chunks with
  | O => Ok n
  | S chunks' =>
      let end_ := GoInt.mul (i + 1) size in
      let end_ := if end_ >? length then length else end_ in
      let* c := slice s (GoInt.mul i size) end_ in
      Chunk_loop s size length chunks' (i + 1) (append_chunk n c)
  end.

Definition Chunk (size : Z) (a : SortedIntArray)
  : outcome (option (list (list Z)) * SortedIntArray) :=
  if size <? 1 then Ok (None, a)
  else
    let* a := mu_RLock a in
    let length := len (array a) in
    let chunks := ceil_div length size in
    let* n := Chunk_loop (array a) size length (Z.to_nat chunks) 0 None in
    let* a := mu_RUnlock a in
    Ok (n, a).

(** ** Objects behind pointers

    [Merge] and [Clone] deal with two structures.  A [*SortedIntArray] is an
    address in a store of objects; two pointers are the same structure
    exactly when the addresses are equal. *)

Definition loc : Type := nat.

Definition deref (h : list SortedIntArray) (l : loc)
  : outcome SortedIntArray :=
  match h !! l with
  | Some o => Ok o
  | None => Panic
  end.

(** Run a step on the object at [l] and write the object back. *)
Definition at_loc (l : loc) (f : SortedIntArray -> outcome SortedIntArray)
    (h : list SortedIntArray) : outcome (list SortedIntArray) :=
  let* o := deref h l in
  let* o := f o in
  Ok (<[l := o]> h).

(** A new object is placed at the first unused address. *)
Definition alloc (o : SortedIntArray) (h : list SortedIntArray)
  : loc * list SortedIntArray :=
  (length h, h ++ [o]).

Definition Merge (a other : loc) (h : list SortedIntArray)
  : outcome (list SortedIntArray) :=
  let* h := at_loc a mu_Lock h in
  let* h := (if negb (Nat.eqb a other) then at_loc other mu_RLock h
             else Ok h) in
  let* o := deref h a in
  let* p := deref h other in
  let o := set_array (array o ++ array p) o in
  let o := set_array (sort_Ints (array o)) o in
  let h := <[a := o]> h in
  let* h := (if negb (Nat.eqb a other) then at_loc other mu_RUnlock h
             else Ok h) in
  at_loc a mu_Unlock h.

Definition Clone (a : loc) (h : list SortedIntArray)
  : outcome (loc * list SortedIntArray) :=
  let* h := at_loc a mu_RLock h in
  let* o := deref h a in
  let* s := make (len (array o)) in
  let s := copy s (array o) in
  let* h := at_loc a mu_RUnlock h in
  let* o := deref h a in
  let* c := NewSortedIntArrayFrom s [negb (rwmutex.IsSafe (mu o))] in
  Ok (alloc c h).

(** ** The remaining accessors and mutators *)

(** [SetArray]: the caller's slice becomes the array and is sorted. *)
Definition SetArray (s : list Z) (a : SortedIntArray)
  : outcome SortedIntArray :=
  let* a := mu_Lock a in
  let a := set_array s a in
  let a := set_array (sort_Ints (array a)) a in
  mu_Unlock a.

Definition Sort (a : SortedIntArray) : outcome SortedIntArray :=
  let* a := mu_Lock a in
  let a := set_array (sort_Ints (array a)) a in
  mu_Unlock a.

(** [Get(index)]; the argument is called [idx] here, [index] being the
    element access of slices. *)
Definition Get (idx : Z) (a : SortedIntArray) : outcome (Z * SortedIntArray) :=
  let* a := mu_RLock a in
  let* value := index (array a) idx in
  let* a := mu_RUnlock a in
  Ok (value, a).

(** [Remove(index)]: the first and the last element are cut off by
    re-slicing, an inner element by appending the rear to the front. *)
Definition Remove (idx : Z) (a : SortedIntArray)
  : outcome (Z * SortedIntArray) :=
  let* a := mu_Lock a in
  if idx =? 0 then
    let* value := index (array a) 0 in
    let* rest := slice_from (array a) 1 in
    let a := set_array rest a in
    let* a := mu_Unlock a in
    Ok (value, a)
  else if idx =? len (array a) - 1 then
    let* value := index (array a) idx in
    let* rest := slice_to (array a) idx in
    let a := set_array rest a in
    let* a := mu_Unlock a in
    Ok (value, a)
  else
    let* value := index (array a) idx in
    let* front := slice_to (array a) idx in
    let* back := slice_from (array a) (GoInt.add idx 1) in
    let a := set_array (front ++ back) a in
    let* a := mu_Unlock a in
    Ok (value, a).

Definition PopLeft (a : SortedIntArray) : outcome (Z * SortedIntArray) :=
  let* a := mu_Lock a in
  let* value := index (array a) 0 in
  let* rest := slice_from (array a) 1 in
  let a := set_array rest a in
  let* a := mu_Unlock a in
  Ok (value, a).

Definition PopRight (a : SortedIntArray) : outcome (Z * SortedIntArray) :=
  let* a := mu_Lock a in
  let idx := len (array a) - 1 in
  let* value := index (array a) idx in
  let* rest := slice_to (array a) idx in
  let a := set_array rest a in
  let* a := mu_Unlock a in
  Ok (value, a).

Definition Len (a : SortedIntArray) : outcome (Z * SortedIntArray) :=
  let* a := mu_RLock a in
  let length := len (array a) in
  let* a := mu_RUnlock a in
  Ok (length, a).

(** [for _, v := range a.array { sum += v }] on a 64-bit [int]. *)
Definition Sum (a : SortedIntArray) : outcome (Z * SortedIntArray) :=
  let* a := mu_RLock a in
  let sum := fold_left GoInt.add (array a) 0 in
  let* a := mu_RUnlock a in
  Ok (sum, a).

(** [Clear]: a non-empty array is replaced by a new empty one. *)
Definition Clear (a : SortedIntArray) : outcome SortedIntArray :=
  let* a := mu_Lock a in
  let* a := (if len (array a) >? 0 then
               let* s := make 0 in Ok (set_array s a)
             else Ok a) in
  mu_Unlock a.

(** A run of calls to [Add]: the states after each call. *)
Fixpoint Add_calls (calls : list (list Z)) (a : SortedIntArray)
  : outcome (list SortedIntArray) :=
  match calls with
  | [] => Ok []
  | values :: rest =>
      let* a := Add values a in
      let* states := Add_calls rest a in
      Ok (a :: states)
  end.

(** ** Properties of states *)

(** Nobody holds the lock of the structure. *)
Definition idle (a : SortedIntArray) : Prop := rwmutex.free (mu a).

(** [elements[i] <= elements[i+1]] for every adjacent pair. *)
Definition sorted (s : list Z) : Prop :=
  forall (i : nat) (x y : Z), s !! i = Some x -> s !! S i = Some y -> x <= y.

(** No two elements at different positions compare equal. *)
Definition no_equal_pair (cmpf : Z -> Z -> Z) (s : list Z) : Prop :=
  forall (i j : nat) (x y : Z),
    s !! i = Some x -> s !! j = Some y -> i <> j -> cmpf x y <> 0.

(** The elements of a possibly nil slice. *)
Definition elems {A : Type} (r : option (list A)) : list A :=
  match r with
  | Some s => s
  | None => []
  end.

(** The element of [s] an index of the permutation selects. *)
Definition pick (s : list Z) (v : Z) : Z := default 0 (s !! Z.to_nat v).

(** States on which the methods are called: nobody holds the lock, the
    comparison is the default one and the array is in ascending order. *)
Definition valid (a : SortedIntArray) : Prop :=
  idle a /\ compareFunc a = defaultCompare /\ StronglySorted Z.le (array a).

(** Where [Add] splices: after the probe when the probe is below the value,
    at the probe otherwise. *)
Definition splice_index (mid cmp : Z) : Z :=
  if cmp >? 0 then mid + 1 else mid.

(** * Verification *)

(** ** Arithmetic and slices *)

Lemma wrap_in_range (z : Z) : GoInt.in_range z -> GoInt.wrap z = z.
Proof.
  unfold GoInt.in_range, GoInt.min_int, GoInt.max_int, GoInt.wrap.
  intros Hz. rewrite Z.mod_small; lia.
Qed.

Lemma len_nonneg {A : Type} (s : list A) : 0 <= len s.
Proof. unfold len. lia. Qed.

Lemma index_Ok (s : list Z) (i : Z) :
  0 <= i < len s ->
  exists x, index s i = Ok x /\ s !! Z.to_nat i = Some x.
Proof.
  intros Hi. unfold index.
  assert (Hb : (0 <=? i) && (i <? len s) = true).
  { apply andb_true_iff. split; [apply Z.leb_le | apply Z.ltb_lt]; lia. }
  rewrite Hb.
  destruct (lookup_lt_is_Some_2 s (Z.to_nat i)) as [x Hx].
  { unfold len in Hi. lia. }
  exists x. rewrite Hx. auto.
Qed.

Lemma index_Panic (s : list Z) (i : Z) :
  i < 0 \/ len s <= i -> index s i = Panic.
Proof.
  intros Hi. unfold index.
  destruct (Z.leb_spec 0 i), (Z.ltb_spec i (len s)); simpl; auto; lia.
Qed.

Lemma slice_Ok (s : list Z) (lo hi : Z) :
  0 <= lo <= hi -> hi <= len s ->
  slice s lo hi = Ok (take (Z.to_nat (hi - lo)) (drop (Z.to_nat lo) s)).
Proof.
  intros H1 H2. unfold slice.
  destruct (Z.leb_spec 0 lo), (Z.leb_spec lo hi), (Z.leb_spec hi (len s));
    simpl; auto; lia.
Qed.

Lemma slice_Panic (s : list Z) (lo hi : Z) :
  lo < 0 \/ hi < lo \/ len s < hi -> slice s lo hi = Panic.
Proof.
  intros H. unfold slice.
  destruct (Z.leb_spec 0 lo), (Z.leb_spec lo hi), (Z.leb_spec hi (len s));
    simpl; auto; lia.
Qed.

Lemma slice_from_Ok (s : list Z) (lo : Z) :
  0 <= lo <= len s -> slice_from s lo = Ok (drop (Z.to_nat lo) s).
Proof.
  intros H. unfold slice_from. rewrite slice_Ok by lia.
  f_equal. apply take_ge. rewrite length_drop. unfold len. lia.
Qed.

Lemma slice_to_Ok (s : list Z) (hi : Z) :
  0 <= hi <= len s -> slice_to s hi = Ok (take (Z.to_nat hi) s).
Proof.
  intros H. unfold slice_to. rewrite slice_Ok by lia.
  rewrite Z.sub_0_r. reflexivity.
Qed.

Lemma make_Ok (n : Z) :
  0 <= n <= max_slice_len -> make n = Ok (replicate (Z.to_nat n) 0).
Proof.
  intros H. unfold make.
  destruct (Z.leb_spec 0 n), (Z.leb_spec n max_slice_len); simpl; auto; lia.
Qed.

Lemma make_Panic (n : Z) : n < 0 -> make n = Panic.
Proof.
  intros H. unfold make. destruct (Z.leb_spec 0 n); simpl; auto; lia.
Qed.

Lemma copy_exact (dst src : list Z) :
  length dst = length src -> copy dst src = src.
Proof.
  intros H. unfold copy. rewrite H, firstn_all, drop_ge by lia.
  apply app_nil_r.
Qed.

Lemma copy_shorter (dst src : list Z) :
  (length dst <= length src)%nat -> copy dst src = take (length dst) src.
Proof.
  intros H. unfold copy. rewrite drop_ge by lia. apply app_nil_r.
Qed.

(** ** Sortedness *)

Section Adjacent.

Variable R : Z -> Z -> Prop.
Hypothesis R_trans : Transitive R.

Lemma adjacent_StronglySorted (s : list Z) :
  (forall (i : nat) x y, s !! i = Some x -> s !! S i = Some y -> R x y) <->
  StronglySorted R s.
Proof.
  split.
  - intros H. apply Sorted_StronglySorted; [exact R_trans |].
    induction s as [| a s IH]; constructor.
    + apply IH. intros i x y Hx Hy. exact (H (S i) x y Hx Hy).
    + destruct s as [| b s]; constructor.
      exact (H 0%nat a b eq_refl eq_refl).
  - intros H. induction H as [| a s Hs IH Ha]; intros i x y Hx Hy.
    + discriminate.
    + destruct i as [| i]; simpl in *.
      * injection Hx as <-. rewrite Forall_forall in Ha. apply Ha.
        eapply list_elem_of_lookup_2. exact Hy.
      * exact (IH i x y Hx Hy).
Qed.

Lemma StronglySorted_lookup (s : list Z) (i j : nat) (x y : Z) :
  StronglySorted R s -> s !! i = Some x -> s !! j = Some y ->
  (i < j)%nat -> R x y.
Proof.
  intros H. revert i j. induction H as [| a s Hs IH Ha]; intros i j Hx Hy Hij.
  - discriminate.
  - destruct j as [| j]; [lia |]. destruct i as [| i]; simpl in *.
    + injection Hx as <-. rewrite Forall_forall in Ha. apply Ha.
      eapply list_elem_of_lookup_2. exact Hy.
    + apply (IH i j); auto. lia.
Qed.

(** Splicing a value in between a lower and an upper part. *)
Lemma StronglySorted_splice (s : list Z) (k : nat) (v : Z) :
  StronglySorted R s ->
  (forall (i : nat) y, s !! i = Some y -> (i < k)%nat -> R y v) ->
  (forall (i : nat) y, s !! i = Some y -> (k <= i)%nat -> R v y) ->
  StronglySorted R (take k s ++ v :: drop k s).
Proof.
  intros Hs Hlo Hhi.
  rewrite <- (take_drop k s) in Hs.
  apply StronglySorted_app in Hs as (H12 & H1 & H2).
  apply StronglySorted_app. repeat split.
  - intros x1 x2 Hx1 Hx2. apply elem_of_cons in Hx2 as [-> | Hx2].
    + apply list_elem_of_lookup in Hx1 as [i Hi].
      apply lookup_take_Some in Hi as [Hi Hik]. exact (Hlo _ _ Hi Hik).
    + exact (H12 _ _ Hx1 Hx2).
  - exact H1.
  - constructor; [exact H2 |]. apply Forall_forall. intros y Hy.
    apply list_elem_of_lookup in Hy as [i Hi].
    rewrite lookup_drop in Hi. apply (Hhi _ _ Hi). lia.
Qed.

End Adjacent.

(** ** Binary search *)

Lemma defaultCompare_cases (v x : Z) :
  (v < x /\ defaultCompare v x = -1) \/
  (v = x /\ defaultCompare v x = 0) \/
  (x < v /\ defaultCompare v x = 1).
Proof.
  unfold defaultCompare.
  destruct (Z.ltb_spec v x); [lia |].
  destruct (Z.gtb_spec v x); lia.
Qed.

Lemma midpoint_bounds (min max : Z) :
  0 <= min -> min <= max -> min <= (min + max) ÷ 2 <= max.
Proof.
  intros H0 H1. rewrite Z.quot_div_nonneg by lia.
  pose proof (Z.div_mod (min + max) 2).
  pose proof (Z.mod_pos_bound (min + max) 2). lia.
Qed.

(** The loop on a sorted array, entered with a non-empty window all of whose
    left neighbours are below [value] and right neighbours above it, returns
    a probed index of the window together with the comparison made there;
    everything left of a probe above [value] is below [value], everything
    right of a probe below [value] is above it. *)
Lemma binSearch_loop_spec (s : list Z) (value : Z) :
  StronglySorted Z.le s ->
  forall (fuel : nat) (min max mid0 cmp0 : Z),
    0 <= min -> min <= max -> max < len s -> max - min < Z.of_nat fuel ->
    (forall (i : nat) y, s !! i = Some y -> Z.of_nat i < min -> y < value) ->
    (forall (i : nat) y, s !! i = Some y -> max < Z.of_nat i -> value < y) ->
    exists mid x,
      binSearch_loop defaultCompare s value fuel min max mid0 cmp0
        = Ok (mid, defaultCompare value x) /\
      min <= mid <= max /\
      s !! Z.to_nat mid = Some x /\
      (value < x ->
       forall (i : nat) y, s !! i = Some y -> Z.of_nat i < mid -> y < value) /\
      (x < value ->
       forall (i : nat) y, s !! i = Some y -> mid < Z.of_nat i -> value < y).
Proof.
  intros Hs fuel. induction fuel as [| fuel IH];
    intros min max mid0 cmp0 Hmin Hle Hmax Hfuel Hlo Hhi; [lia |].
  cbn [binSearch_loop].
  destruct (Z.leb_spec min max) as [_ | ?]; [| lia].
  pose proof (midpoint_bounds min max Hmin Hle) as Hmid.
  set (mid := (min + max) ÷ 2) in *.
  destruct (index_Ok s mid) as (x & Hix & Hx); [lia |].
  rewrite Hix. cbn [bind].
  destruct (defaultCompare_cases value x) as [[Hc Hd] | [[Hc Hd] | [Hc Hd]]];
    rewrite Hd; cbn.
  - (* value < x: continue on the left *)
    assert (Hhi' : forall (i : nat) y,
               s !! i = Some y -> mid - 1 < Z.of_nat i -> value < y).
    { intros i y Hy Hi.
      destruct (Z.eq_dec (Z.of_nat i) mid) as [E | E].
      - replace (Z.to_nat mid) with i in Hx by lia. congruence.
      - assert (x <= y); [| lia].
        apply (StronglySorted_lookup Z.le s (Z.to_nat mid) i); auto. lia. }
    destruct (Z.le_gt_cases min (mid - 1)) as [Hin | Hout].
    + destruct (IH min (mid - 1) mid (-1)) as (m & z & E & Hm & Hz & Hl & Hr);
        auto; try lia.
      exists m, z. rewrite E. repeat split; auto; lia.
    + exists mid, x. rewrite Hd. split.
      * destruct fuel; cbn [binSearch_loop];
          destruct (Z.leb_spec min (mid - 1)); auto; lia.
      * repeat split; auto; try lia.
        intros _ i y Hy Hi. apply (Hlo i y Hy). lia.
  - (* equal: found *)
    subst x. exists mid, value. rewrite Hd. repeat split; auto; lia.
  - (* x < value: continue on the right *)
    assert (Hlo' : forall (i : nat) y,
               s !! i = Some y -> Z.of_nat i < mid + 1 -> y < value).
    { intros i y Hy Hi.
      destruct (Z.eq_dec (Z.of_nat i) mid) as [E | E].
      - replace (Z.to_nat mid) with i in Hx by lia. congruence.
      - assert (y <= x); [| lia].
        apply (StronglySorted_lookup Z.le s i (Z.to_nat mid)); auto. lia. }
    destruct (Z.le_gt_cases (mid + 1) max) as [Hin | Hout].
    + destruct (IH (mid + 1) max mid 1) as (m & z & E & Hm & Hz & Hl & Hr);
        auto; try lia.
      exists m, z. rewrite E. repeat split; auto; lia.
    + exists mid, x. rewrite Hd. split.
      * destruct fuel; cbn [binSearch_loop];
          destruct (Z.leb_spec (mid + 1) max); auto; lia.
      * repeat split; auto; try lia.
        intros _ i y Hy Hi. apply (Hhi i y Hy). lia.
Qed.

Lemma sorted_lookup_le (s : list Z) (i j : nat) (x y : Z) :
  StronglySorted Z.le s -> s !! i = Some x -> s !! j = Some y ->
  (i <= j)%nat -> x <= y.
Proof.
  intros Hs Hx Hy Hij. destruct (decide (i = j)) as [-> | Hne].
  - assert (x = y) by congruence. lia.
  - apply (StronglySorted_lookup Z.le s i j); auto. lia.
Qed.

Lemma splice_index_spec (s : list Z) (value mid x : Z) :
  StronglySorted Z.le s ->
  0 <= mid -> s !! Z.to_nat mid = Some x ->
  (value < x ->
   forall (i : nat) y, s !! i = Some y -> Z.of_nat i < mid -> y < value) ->
  (x < value ->
   forall (i : nat) y, s !! i = Some y -> mid < Z.of_nat i -> value < y) ->
  let k := splice_index mid (defaultCompare value x) in
  0 <= k <= len s /\
  (forall (i : nat) y, s !! i = Some y -> Z.of_nat i < k -> y <= value) /\
  (forall (i : nat) y, s !! i = Some y -> k <= Z.of_nat i -> value <= y) /\
  (defaultCompare value x <> 0 -> value ∉ s).
Proof.
  intros Hs Hmid Hx Hl Hr k.
  assert (Hlen : mid < len s).
  { apply lookup_lt_Some in Hx. unfold len. lia. }
  assert (Hbelow : forall (i : nat) y,
             s !! i = Some y -> Z.of_nat i <= mid -> y <= x).
  { intros i y Hy Hi.
    apply (sorted_lookup_le s i (Z.to_nat mid)); auto. lia. }
  assert (Habove : forall (i : nat) y,
             s !! i = Some y -> mid <= Z.of_nat i -> x <= y).
  { intros i y Hy Hi.
    apply (sorted_lookup_le s (Z.to_nat mid) i); auto. lia. }
  subst k. unfold splice_index.
  destruct (defaultCompare_cases value x) as [[Hc Hd] | [[Hc Hd] | [Hc Hd]]];
    rewrite Hd; cbn.
  - split; [lia |]. split; [| split].
    + intros i y Hy Hi. specialize (Hl Hc i y Hy Hi). lia.
    + intros i y Hy Hi. specialize (Habove i y Hy Hi). lia.
    + intros _ Hin. apply list_elem_of_lookup in Hin as [i Hi].
      destruct (Z.lt_ge_cases (Z.of_nat i) mid) as [Hlt | Hge].
      * specialize (Hl Hc i value Hi Hlt). lia.
      * specialize (Habove i value Hi). lia.
  - split; [lia |]. split; [| split].
    + intros i y Hy Hi. specialize (Hbelow i y Hy). lia.
    + intros i y Hy Hi. specialize (Habove i y Hy Hi). lia.
    + intros Hne. lia.
  - split; [lia |]. split; [| split].
    + intros i y Hy Hi. specialize (Hbelow i y Hy). lia.
    + intros i y Hy Hi. assert (value < y); [| lia]. apply (Hr Hc i y Hy). lia.
    + intros _ Hin. apply list_elem_of_lookup in Hin as [i Hi].
      destruct (Z.le_gt_cases (Z.of_nat i) mid) as [Hle | Hgt].
      * specialize (Hbelow i value Hi Hle). lia.
      * specialize (Hr Hc i value Hi Hgt). lia.
Qed.

(** [binSearch] without locking on a sorted non-empty array. *)
Lemma binSearch_sorted (value : Z) (a : SortedIntArray) :
  compareFunc a = defaultCompare ->
  StronglySorted Z.le (array a) ->
  array a <> [] ->
  exists mid x,
    binSearch value false a = Ok (mid, defaultCompare value x, a) /\
    0 <= mid < len (array a) /\
    array a !! Z.to_nat mid = Some x /\
    (value < x ->
     forall (i : nat) y,
       array a !! i = Some y -> Z.of_nat i < mid -> y < value) /\
    (x < value ->
     forall (i : nat) y,
       array a !! i = Some y -> mid < Z.of_nat i -> value < y).
Proof.
  intros Hcf Hs Hne. unfold binSearch.
  assert (Hpos : 0 < len (array a)).
  { unfold len. destruct (array a); [congruence | cbn; lia]. }
  destruct (Z.eqb_spec (len (array a)) 0) as [E | _]; [lia |].
  cbn [bind]. rewrite Hcf.
  destruct (binSearch_loop_spec (array a) value Hs (length (array a))
              0 (len (array a) - 1) 0 (-2))
    as (mid & x & E & Hm & Hx & Hl & Hr); try (unfold len in *; lia).
  { intros i y Hy Hi. apply lookup_lt_Some in Hy. unfold len in Hi. lia. }
  exists mid, x. rewrite E. cbn. repeat split; auto; lia.
Qed.

(** One iteration of the loop of [Add]. *)
Lemma Add_loop_step (value : Z) (a : SortedIntArray) :
  compareFunc a = defaultCompare ->
  StronglySorted Z.le (array a) ->
  exists s,
    (forall rest,
        Add_loop (value :: rest) a = Add_loop rest (set_array s a)) /\
    StronglySorted Z.le s /\
    ((unique a = true /\ value ∈ array a /\ s = array a) \/
     ((unique a = false \/ value ∉ array a) /\
      Permutation s (value :: array a))).
Proof.
  intros Hcf Hs.
  destruct (array a) as [| e t] eqn:Harr.
  - (* empty: append *)
    exists [value]. split; [| split].
    + intros rest. cbn [Add_loop]. unfold binSearch. rewrite Harr.
      change (len (@nil Z) =? 0) with true. cbn.
      rewrite andb_false_r. rewrite Harr. reflexivity.
    + repeat constructor.
    + right. split; [right; apply not_elem_of_nil | reflexivity].
  - rewrite <- Harr in *.
    destruct (binSearch_sorted value a Hcf Hs) as (mid & x & E & Hm & Hx & Hl & Hr).
    { rewrite Harr. discriminate. }
    destruct (splice_index_spec (array a) value mid x Hs)
      as (Hk & Hbelow & Habove & Hnotin); auto; try lia.
    set (k := splice_index mid (defaultCompare value x)) in *.
    destruct (unique a && (defaultCompare value x =? 0)) eqn:Hskip.
    + (* unique and found: skipped *)
      apply andb_true_iff in Hskip as [Hu Hz]. apply Z.eqb_eq in Hz.
      exists (array a). split; [| split; [exact Hs |]].
      * intros rest. cbn [Add_loop]. rewrite E. cbn. rewrite Hu, Hz. cbn.
        destruct a; reflexivity.
      * left. split; [exact Hu |]. split; [| reflexivity].
        destruct (defaultCompare_cases value x) as [[? ?] | [[-> _] | [? ?]]];
          try lia.
        eapply list_elem_of_lookup_2. exact Hx.
    + exists (take (Z.to_nat k) (array a) ++ value :: drop (Z.to_nat k) (array a)).
      split; [| split].
      * intros rest. cbn [Add_loop]. rewrite E. cbn. rewrite Hskip.
        destruct (Z.ltb_spec mid 0) as [? | _]; [lia |].
        fold (splice_index mid (defaultCompare value x)). fold k.
        rewrite slice_from_Ok by lia. cbn [bind].
        rewrite slice_Ok by lia. cbn [bind]. rewrite Z.sub_0_r.
        cbn. rewrite drop_0, <- app_assoc. reflexivity.
      * apply StronglySorted_splice; auto.
        -- intros i y Hy Hi. apply (Hbelow i y Hy). lia.
        -- intros i y Hy Hi. apply (Habove i y Hy). lia.
      * right. split.
        -- apply andb_false_iff in Hskip as [Hu | Hz]; [left; exact Hu |].
           right. apply Hnotin. apply Z.eqb_neq. exact Hz.
        -- rewrite <- Permutation_middle. rewrite take_drop. reflexivity.
Qed.

(** ** Add *)

Lemma Add_loop_sorted (values : list Z) :
  forall a : SortedIntArray,
    compareFunc a = defaultCompare ->
    StronglySorted Z.le (array a) ->
    exists s,
      Add_loop values a = Ok (set_array s a) /\
      StronglySorted Z.le s /\
      (unique a = true -> NoDup (array a) -> NoDup s) /\
      (unique a = true -> (forall v, v ∈ values -> v ∈ array a) ->
       s = array a).
Proof.
  induction values as [| value rest IH]; intros a Hcf Hs.
  - exists (array a). repeat split; auto. destruct a; reflexivity.
  - destruct (Add_loop_step value a Hcf Hs) as (s1 & Estep & Hs1 & Hcase).
    destruct (IH (set_array s1 a) Hcf Hs1) as (s & E & Hsorted & Hnd & Hsame).
    exists s. rewrite Estep, E. repeat split; auto.
    + intros Hu Hnodup. apply Hnd; [exact Hu |]. cbn.
      destruct Hcase as [(_ & _ & ->) | ([Hf | Hnotin] & Hperm)]; auto.
      * congruence.
      * rewrite Hperm. constructor; auto.
    + intros Hu Hall. cbn in Hsame.
      destruct Hcase as [(_ & _ & ->) | ([Hf | Hnotin] & Hperm)].
      * apply Hsame; auto. intros v Hv. apply Hall. now right.
      * congruence.
      * exfalso. apply Hnotin, Hall. now left.
Qed.

Lemma Lock_Unlock_idle (a : SortedIntArray) (s : list Z) :
  idle a ->
  exists a1,
    mu_Lock a = Ok a1 /\ array a1 = array a /\ unique a1 = unique a /\
    compareFunc a1 = compareFunc a /\
    mu_Unlock (set_array s a1) = Ok (set_array s a).
Proof.
  destruct a as [[sf w r] arr u cf]. unfold idle, rwmutex.free. cbn.
  intros [-> ->]. unfold mu_Lock, mu_Unlock, rwmutex.Lock, rwmutex.Unlock.
  cbn. destruct sf; cbn; eexists; repeat split; reflexivity.
Qed.

Lemma Add_valid (values : list Z) (a : SortedIntArray) :
  valid a ->
  exists s,
    Add values a = Ok (set_array s a) /\
    StronglySorted Z.le s /\
    (unique a = true -> NoDup (array a) -> NoDup s) /\
    (unique a = true -> (forall v, v ∈ values -> v ∈ array a) ->
     s = array a).
Proof.
  intros (Hidle & Hcf & Hs). unfold Add.
  destruct values as [| v values].
  - exists (array a). cbn. repeat split; auto. destruct a; reflexivity.
  - change (len (v :: values) =? 0) with
      (Z.pos (Pos.of_succ_nat (length values)) =? 0).
    cbn [Z.eqb].
    destruct (Lock_Unlock_idle a (array a) Hidle)
      as (a1 & E1 & Harr & Hu & Hcf1 & _).
    rewrite E1. cbn [bind].
    destruct (Add_loop_sorted (v :: values) a1) as (s & E & H1 & H2 & H3).
    { congruence. }
    { rewrite Harr. exact Hs. }
    rewrite E. cbn [bind].
    destruct (Lock_Unlock_idle a s Hidle) as (a1' & E1' & _ & _ & _ & E2).
    assert (a1' = a1) by congruence. subst a1'.
    exists s. rewrite Harr, Hu in *. repeat split; auto.
Qed.

Lemma sorted_iff (s : list Z) : sorted s <-> StronglySorted Z.le s.
Proof. apply adjacent_StronglySorted. intros x y z. apply Z.le_trans. Qed.

Lemma no_equal_pair_iff (s : list Z) :
  no_equal_pair defaultCompare s <-> NoDup s.
Proof.
  rewrite NoDup_alt. unfold no_equal_pair. split.
  - intros H i j x Hi Hj. destruct (decide (i = j)) as [| Hne]; [assumption |].
    exfalso. apply (H i j x x Hi Hj Hne).
    destruct (defaultCompare_cases x x) as [[? ?] | [[_ ?] | [? ?]]];
      auto; lia.
  - intros H i j x y Hi Hj Hne Hc. apply Hne.
    destruct (defaultCompare_cases x y) as [[? ?] | [[-> _] | [? ?]]];
      try lia.
    exact (H i j y Hi Hj).
Qed.

Lemma RLock_RUnlock_free (a : SortedIntArray) :
  rwmutex.writer (mu a) = false ->
  exists a1,
    mu_RLock a = Ok a1 /\ array a1 = array a /\ unique a1 = unique a /\
    compareFunc a1 = compareFunc a /\
    rwmutex.IsSafe (mu a1) = rwmutex.IsSafe (mu a) /\
    rwmutex.writer (mu a1) = false /\
    mu_RUnlock a1 = Ok a.
Proof.
  destruct a as [[sf w r] arr u cf]. cbn. intros ->.
  unfold mu_RLock, mu_RUnlock, rwmutex.RLock, rwmutex.RUnlock.
  cbn. destruct sf; cbn; eexists; repeat split; reflexivity.
Qed.

Lemma RLock_RUnlock_idle (a : SortedIntArray) :
  idle a ->
  exists a1,
    mu_RLock a = Ok a1 /\ array a1 = array a /\ unique a1 = unique a /\
    compareFunc a1 = compareFunc a /\
    rwmutex.IsSafe (mu a1) = rwmutex.IsSafe (mu a) /\
    rwmutex.writer (mu a1) = false /\
    mu_RUnlock a1 = Ok a.
Proof. intros [Hw _]. apply RLock_RUnlock_free. exact Hw. Qed.

(** ** Search and Contains *)

(** [binSearch] with locking, as [Search] calls it. *)
Lemma binSearch_lock_sorted (value : Z) (a : SortedIntArray) :
  valid a -> array a <> [] ->
  exists mid x,
    binSearch value true a = Ok (mid, defaultCompare value x, a) /\
    0 <= mid < len (array a) /\
    array a !! Z.to_nat mid = Some x /\
    (defaultCompare value x <> 0 -> value ∉ array a).
Proof.
  intros (Hidle & Hcf & Hs) Hne.
  destruct (binSearch_sorted value a Hcf Hs Hne)
    as (mid & x & E & Hm & Hx & Hl & Hr).
  destruct (splice_index_spec (array a) value mid x Hs)
    as (_ & _ & _ & Hnotin); auto; try lia.
  exists mid, x. split; [| auto].
  destruct (RLock_RUnlock_idle a Hidle)
    as (a1 & E1 & Harr & _ & Hcf1 & _ & _ & E2).
  unfold binSearch in *.
  destruct (Z.eqb_spec (len (array a)) 0); [lia |].
  rewrite E1. cbn [bind] in *. rewrite Hcf1, Harr.
  destruct (binSearch_loop (compareFunc a) (array a) value
              (length (array a)) 0 (len (array a) - 1) 0 (-2))
    as [[m c] | | |]; cbn in *; try discriminate.
  rewrite E2. cbn. congruence.
Qed.

(** The half of the search contract the code keeps: a value that occurs in
    a sorted array is found at an index holding it. *)
Lemma Search_present (value : Z) (a : SortedIntArray) :
  valid a -> value ∈ array a ->
  exists i,
    Search value a = Ok (i, a) /\ 0 <= i < len (array a) /\
    array a !! Z.to_nat i = Some value.
Proof.
  intros Hv Hin.
  destruct (binSearch_lock_sorted value a Hv) as (mid & x & E & Hm & Hx & Hn).
  { intros Hnil. rewrite Hnil in Hin. inversion Hin. }
  exists mid. unfold Search. rewrite E. cbn. repeat split; try lia.
  destruct (defaultCompare_cases value x) as [[? Hd] | [[-> _] | [? Hd]]];
    auto; exfalso; apply Hn; auto; lia.
Qed.

(** The other half fails: on a non-empty sorted array [Search] answers with
    an index of the array, whatever the value. *)
Lemma Search_nonempty_index (value : Z) (a : SortedIntArray) :
  valid a -> array a <> [] ->
  exists i, Search value a = Ok (i, a) /\ 0 <= i < len (array a).
Proof.
  intros Hv Hne.
  destruct (binSearch_lock_sorted value a Hv Hne) as (mid & x & E & Hm & _).
  exists mid. unfold Search. rewrite E. cbn. split; [reflexivity | lia].
Qed.

Lemma Search_empty (value : Z) (a : SortedIntArray) :
  array a = [] -> Search value a = Ok (-1, a).
Proof. intros H. unfold Search, binSearch. rewrite H. reflexivity. Qed.

(** [Contains] answers whether [Search] returned index 0. *)
Lemma Contains_iff_Search_zero (value : Z) (a : SortedIntArray) (b : bool)
    (a' : SortedIntArray) :
  Contains value a = Ok (b, a') ->
  exists i, Search value a = Ok (i, a') /\ (b = true <-> i = 0).
Proof.
  unfold Contains. destruct (Search value a) as [[i a1] | | |];
    cbn; try discriminate.
  intros [= <- <-]. exists i. split; [reflexivity |].
  destruct (Z.eqb_spec i 0); split; congruence.
Qed.

(** With the unique flag set, adding a value that occurs already changes
    nothing. *)
Lemma Add_present_same_length (a : SortedIntArray) :
  idle a -> compareFunc a = defaultCompare -> unique a = true ->
  StronglySorted Z.le (array a) ->
  forall value, value ∈ array a ->
    exists a', Add [value] a = Ok a' /\ len (array a') = len (array a).
Proof.
  intros Hidle Hcf Hu Hs value Hin.
  destruct (Add_valid [value] a (conj Hidle (conj Hcf Hs)))
    as (s & E & _ & _ & Hsame).
  exists (set_array s a). split; [exact E |]. cbn. rewrite Hsame; auto.
  intros v Hv. apply list_elem_of_singleton in Hv. congruence.
Qed.

(** ** Unique

    The iteration bound of the loop of [Unique] is never reached: on a
    non-empty array the loop returns. *)
Lemma Unique_loop_returns (cmpf : Z -> Z -> Z) (fuel : nat) :
  forall (s : list Z) (i : Z),
    0 <= i < len s -> len s - i <= Z.of_nat fuel ->
    exists s', Unique_loop cmpf fuel s i = Ok s' /\ 0 < len s' <= len s.
Proof.
  induction fuel as [| fuel IH]; intros s i Hi Hfuel; [lia |].
  cbn [Unique_loop].
  destruct (Z.eqb_spec i (len s - 1)) as [Hend | Hmore].
  - exists s. split; [reflexivity | lia].
  - destruct (index_Ok s i) as (x & Ex & _); [lia |].
    destruct (index_Ok s (i + 1)) as (y & Ey & _); [lia |].
    rewrite Ex, Ey. cbn [bind].
    destruct (cmpf x y =? 0).
    + rewrite slice_to_Ok, slice_from_Ok by lia. cbn [bind].
      set (s1 := take (Z.to_nat (i + 1)) s ++ drop (Z.to_nat (i + 1 + 1)) s).
      assert (Hlen : len s1 = len s - 1).
      { unfold s1, len. rewrite length_app, length_take, length_drop.
        unfold len in *. lia. }
      destruct (IH s1 i) as (s' & E & Hs'); try lia.
      exists s'. split; [exact E | lia].
    + destruct (IH s (i + 1)) as (s' & E & Hs'); try lia.
      exists s'. split; [exact E | lia].
Qed.

Lemma Unique_nonempty_returns (a : SortedIntArray) :
  idle a -> array a <> [] ->
  exists s, Unique a = Ok (set_array s a) /\ 0 < len s <= len (array a).
Proof.
  intros Hidle Hne. unfold Unique.
  assert (Hpos : 0 < len (array a)).
  { unfold len. destruct (array a); [congruence | cbn; lia]. }
  destruct (Lock_Unlock_idle a (array a) Hidle)
    as (a1 & E1 & Harr & _ & _ & _).
  rewrite E1. cbn [bind]. rewrite Harr.
  destruct (Unique_loop_returns (compareFunc a1) (S (length (array a)))
              (array a) 0) as (s & E & Hs); [lia | unfold len; lia |].
  rewrite E. cbn [bind].
  destruct (Lock_Unlock_idle a s Hidle) as (a1' & E1' & _ & _ & _ & E2).
  assert (a1' = a1) by congruence. subst a1'.
  exists s. split; [exact E2 | exact Hs].
Qed.

(** ** The claims *)

(** C1 (search correctness): the code departs from it.  The claim promises
    the not-found sentinel -1 for every value that does not occur.  On the
    sorted array [1, 3] the value 2 does not occur, and [Search] returns 1,
    the index of the last probe: it discards the comparison result that
    [binSearch] hands back with the index. *)
Theorem Search_absent_returns_last_probe :
  (let* a := NewSortedIntArrayFrom [1; 3] [] in
   let* r := Search 2 a in
   Ok (r.1, array r.2)) = Ok (1, [1; 3]) /\
  2 ∉ [1; 3].
Proof.
  split; [vm_compute; reflexivity |].
  intros H. repeat (apply elem_of_cons in H as [H | H]; [discriminate |]).
  inversion H.
Qed.

(** C2 (Contains iff Search finds an index): the code departs from it.
    On the sorted array [1, 2, 3] the value 3 is found by [Search] at index
    2, which is not the sentinel, and [Contains] answers false: it compares
    the index with 0. *)
Theorem Contains_false_on_found_value :
  (let* a := NewSortedIntArrayFrom [1; 2; 3] [] in
   let* r := Search 3 a in
   Ok r.1) = Ok 2 /\
  (let* a := NewSortedIntArrayFrom [1; 2; 3] [] in
   let* r := Contains 3 a in
   Ok r.1) = Ok false.
Proof. split; vm_compute; reflexivity. Qed.

(** C3 (sortedness invariant).  From a sorted state, every call of a run of
    [Add] calls returns, and after each call every adjacent pair of the
    array is in ascending order. *)
Theorem Add_calls_sorted (calls : list (list Z)) :
  forall a : SortedIntArray,
    idle a ->
    compareFunc a = defaultCompare ->
    sorted (array a) ->
    exists states,
      Add_calls calls a = Ok states /\
      length states = length calls /\
      Forall (fun a' => sorted (array a')) states.
Proof.
  induction calls as [| values calls IH]; intros a Hidle Hcf Hs.
  - exists []. repeat split; auto.
  - apply sorted_iff in Hs.
    destruct (Add_valid values a (conj Hidle (conj Hcf Hs))) as (s & E & Hs' & _).
    destruct (IH (set_array s a)) as (states & E' & Hlen & Hall); auto.
    { apply sorted_iff. exact Hs'. }
    exists (set_array s a :: states). cbn [Add_calls]. rewrite E. cbn [bind].
    rewrite E'. cbn. repeat split; [congruence |].
    constructor; [apply sorted_iff; exact Hs' | exact Hall].
Qed.

Lemma Add_calls_sorted_witness :
  let a := {| mu := rwmutex.New []; array := [];
              unique := false; compareFunc := defaultCompare |} in
  exists states,
    Add_calls [[5; 3; 8; 3]; [4]] a = Ok states /\
    length states = 2%nat /\
    Forall (fun a' => sorted (array a')) states.
Proof.
  intros a. apply (Add_calls_sorted [[5; 3; 8; 3]; [4]] a).
  - split; reflexivity.
  - reflexivity.
  - intros i x y H. discriminate H.
Defined.

(** C4 (uniqueness invariant).  With the unique flag set, from a sorted
    state without equal elements: every call of a run of [Add] calls
    returns; in the initial state and after each call no two elements
    compare equal, and adding a value that is already present returns with
    the length unchanged. *)
Theorem Add_calls_unique (calls : list (list Z)) :
  forall a : SortedIntArray,
    idle a ->
    compareFunc a = defaultCompare ->
    unique a = true ->
    sorted (array a) ->
    no_equal_pair (compareFunc a) (array a) ->
    exists states,
      Add_calls calls a = Ok states /\
      length states = length calls /\
      Forall (fun a' =>
                no_equal_pair (compareFunc a') (array a') /\
                forall value, value ∈ array a' ->
                  exists a'', Add [value] a' = Ok a'' /\
                              len (array a'') = len (array a'))
             (a :: states).
Proof.
  induction calls as [| values calls IH]; intros a Hidle Hcf Hu Hs Hne.
  - exists []. repeat split; auto. constructor; [| constructor].
    split; [exact Hne |].
    apply Add_present_same_length; auto. apply sorted_iff. exact Hs.
  - pose proof Hs as Hss. apply sorted_iff in Hss.
    pose proof Hne as Hnd0. rewrite Hcf in Hnd0.
    apply no_equal_pair_iff in Hnd0.
    destruct (Add_valid values a (conj Hidle (conj Hcf Hss)))
      as (s & E & Hs' & Hnd & _).
    destruct (IH (set_array s a)) as (states & E' & Hlen & Hall); auto.
    { apply sorted_iff. exact Hs'. }
    { cbn. rewrite Hcf. apply no_equal_pair_iff. auto. }
    exists (set_array s a :: states). cbn [Add_calls]. rewrite E. cbn [bind].
    rewrite E'. cbn [bind length]. split; [reflexivity |].
    split; [congruence |].
    constructor; [| exact Hall].
    split; [exact Hne |]. apply Add_present_same_length; auto.
Qed.

Lemma Add_calls_unique_witness :
  let a := {| mu := rwmutex.New []; array := [];
              unique := true; compareFunc := defaultCompare |} in
  exists states,
    Add_calls [[5; 3; 8; 3]; [8]] a = Ok states /\
    length states = 2%nat /\
    Forall (fun a' =>
              no_equal_pair (compareFunc a') (array a') /\
              forall value, value ∈ array a' ->
                exists a'', Add [value] a' = Ok a'' /\
                            len (array a'') = len (array a'))
           (a :: states).
Proof.
  intros a. apply (Add_calls_unique [[5; 3; 8; 3]; [8]] a).
  - split; reflexivity.
  - reflexivity.
  - reflexivity.
  - intros i x y H. discriminate H.
  - intros i j x y H. discriminate H.
Defined.

(** C10 (Unique on an empty structure).  On an empty array [Unique] panics,
    indexing element 0, and so does [SetUnique(true)] when the flag was
    false before. *)
Theorem Unique_empty_panics (a : SortedIntArray) :
  idle a ->
  array a = [] ->
  Unique a = Panic /\
  (unique a = false -> SetUnique true a = Panic).
Proof.
  destruct a as [[sf w r] arr u cf]. unfold idle, rwmutex.free. cbn.
  intros [-> ->] ->.
  assert (E : Unique {| mu := {| rwmutex.safe := sf; rwmutex.writer := false;
                                 rwmutex.readers := 0 |};
                        array := []; unique := true; compareFunc := cf |}
              = Panic).
  { unfold Unique, mu_Lock, rwmutex.Lock. destruct sf; reflexivity. }
  split.
  - unfold Unique, mu_Lock, rwmutex.Lock. destruct sf; reflexivity.
  - intros ->. unfold SetUnique. cbn. exact E.
Qed.

Lemma Unique_empty_panics_witness :
  let a := {| mu := rwmutex.New []; array := [];
              unique := false; compareFunc := defaultCompare |} in
  Unique a = Panic /\ SetUnique true a = Panic.
Proof.
  intros a.
  destruct (Unique_empty_panics a) as [H1 H2].
  - split; reflexivity.
  - reflexivity.
  - split; [exact H1 | apply H2; reflexivity].
Defined.

(** ** Sorting, Merge and Clone *)

Lemma sort_Ints_sorted (s : list Z) : StronglySorted Z.le (sort_Ints s).
Proof. apply StronglySorted_merge_sort; apply _. Qed.

Lemma sort_Ints_perm (s : list Z) : Permutation (sort_Ints s) s.
Proof. apply merge_sort_Permutation. Qed.

Lemma sort_Ints_id (s : list Z) : StronglySorted Z.le s -> sort_Ints s = s.
Proof.
  intros Hs. apply (StronglySorted_unique Z.le); auto.
  - apply sort_Ints_sorted.
  - apply sort_Ints_perm.
Qed.

Lemma deref_insert (h : list SortedIntArray) (l : loc) (o : SortedIntArray) :
  (l < length h)%nat -> deref (<[l := o]> h) l = Ok o.
Proof.
  intros Hl. unfold deref. rewrite list_lookup_insert_eq by exact Hl.
  reflexivity.
Qed.

(** What the guard [a != array] of [Merge] avoids: in safe mode a read lock
    requested while the write lock is held never comes. *)
Lemma RLock_after_Lock_deadlocks (a a1 : SortedIntArray) :
  rwmutex.IsSafe (mu a) = true ->
  mu_Lock a = Ok a1 ->
  mu_RLock a1 = Deadlock.
Proof.
  destruct a as [[sf w r] arr u cf]. cbn. intros ->.
  unfold mu_Lock, rwmutex.Lock. cbn.
  destruct (w || negb (r =? 0)%nat); cbn; [discriminate |].
  intros [= <-]. reflexivity.
Qed.

(** C5 (self-merge), as the code has it.  [Merge] called with the receiver
    as its argument takes the lock once and returns; the array afterwards
    is the ascending rearrangement of the old contents taken twice, so its
    length doubles. *)
Theorem Merge_self_doubles (h : list SortedIntArray) (a : loc)
    (o : SortedIntArray) :
  h !! a = Some o ->
  idle o ->
  exists o',
    Merge a a h = Ok (<[a := o']> h) /\
    o' = set_array (sort_Ints (array o ++ array o)) o /\
    sorted (array o') /\
    Permutation (array o') (array o ++ array o) /\
    len (array o') = 2 * len (array o).
Proof.
  intros Ha Hidle.
  set (s := sort_Ints (array o ++ array o)).
  exists (set_array s o).
  assert (Hlt : (a < length h)%nat) by (eapply lookup_lt_Some; exact Ha).
  destruct (Lock_Unlock_idle o s Hidle) as (o1 & E1 & Harr & _ & _ & E2).
  split; [| split; [reflexivity | split; [| split]]].
  - unfold Merge, at_loc. rewrite Nat.eqb_refl. cbn [negb bind].
    unfold deref at 1. rewrite Ha. cbn [bind]. rewrite E1. cbn [bind].
    rewrite !deref_insert by (rewrite ?length_insert; exact Hlt).
    cbn [bind array set_array]. rewrite Harr. fold s.
    rewrite deref_insert by (rewrite ?length_insert; exact Hlt).
    cbn [bind].
    change (set_array s (set_array (array o ++ array o) o1))
      with (set_array s o1).
    rewrite E2. cbn [bind]. rewrite !list_insert_insert_eq. reflexivity.
  - apply sorted_iff. apply sort_Ints_sorted.
  - apply sort_Ints_perm.
  - cbn. unfold s. unfold len.
    rewrite (Permutation_length (sort_Ints_perm _)), length_app. lia.
Qed.

Lemma Merge_self_doubles_witness :
  let o := {| mu := rwmutex.New []; array := [1; 2];
              unique := false; compareFunc := defaultCompare |} in
  exists o',
    Merge 0%nat 0%nat [o] = Ok (<[0%nat := o']> [o]) /\
    o' = set_array (sort_Ints (array o ++ array o)) o /\
    sorted (array o') /\
    Permutation (array o') (array o ++ array o) /\
    len (array o') = 2 * len (array o).
Proof.
  intros o. apply (Merge_self_doubles [o] 0%nat o).
  - reflexivity.
  - split; reflexivity.
Defined.

(** C5, the claim as stated fails: the self-merge of [1, 2] leaves
    [1, 1, 2, 2]. *)
Lemma Merge_self_changes_contents :
  let o := {| mu := rwmutex.New []; array := [1; 2];
              unique := false; compareFunc := defaultCompare |} in
  exists o',
    Merge 0%nat 0%nat [o] = Ok [o'] /\
    array o' = [1; 1; 2; 2] /\
    array o' <> array o.
Proof.
  intros o. eexists. split; [vm_compute; reflexivity |].
  split; [reflexivity | discriminate].
Qed.

(** C6 (Clone), as the code has it.  [Clone] returns a new structure at an
    unused address and leaves the source as it was; the array of the clone
    is the sorted copy of the source's array, equal to it when the source is
    sorted; the clone is in safe mode exactly when the source is: the
    constructor receives [!IsSafe()] as its [unsafe] argument. *)
Theorem Clone_keeps_mode (h : list SortedIntArray) (a : loc)
    (o : SortedIntArray) :
  h !! a = Some o ->
  idle o ->
  len (array o) <= max_slice_len ->
  exists c,
    Clone a h = Ok (length h, h ++ [c]) /\
    h !! length h = None /\
    (h ++ [c]) !! a = Some o /\
    (h ++ [c]) !! length h = Some c /\
    array c = sort_Ints (array o) /\
    (sorted (array o) -> array c = array o) /\
    rwmutex.IsSafe (mu c) = rwmutex.IsSafe (mu o) /\
    idle c.
Proof.
  intros Ha Hidle Hlen.
  assert (Hlt : (a < length h)%nat) by (eapply lookup_lt_Some; exact Ha).
  destruct (RLock_RUnlock_idle o Hidle)
    as (o1 & E1 & Harr & _ & _ & _ & _ & E2).
  set (c := {| mu := rwmutex.New [negb (rwmutex.IsSafe (mu o))];
               array := sort_Ints (array o);
               unique := false; compareFunc := defaultCompare |}).
  exists c.
  split; [| repeat split].
  - unfold Clone, at_loc. unfold deref at 1. rewrite Ha. cbn [bind].
    rewrite E1. cbn [bind]. rewrite deref_insert by exact Hlt. cbn [bind].
    rewrite Harr, make_Ok by (pose proof (len_nonneg (array o)); lia).
    cbn [bind]. rewrite E2. cbn [bind].
    rewrite list_insert_insert_eq, deref_insert by exact Hlt. cbn [bind].
    rewrite (list_insert_id h a o Ha).
    rewrite copy_exact by (rewrite length_replicate; unfold len; lia).
    reflexivity.
  - apply lookup_ge_None. lia.
  - rewrite lookup_app_l by exact Hlt. exact Ha.
  - rewrite lookup_app_r by lia. rewrite Nat.sub_diag. reflexivity.
  - intros Hs. cbn. apply sort_Ints_id. apply sorted_iff. exact Hs.
  - cbn. unfold rwmutex.IsSafe. destruct (rwmutex.safe (mu o)); reflexivity.
Qed.

Lemma Clone_keeps_mode_witness :
  let o := {| mu := rwmutex.New [true]; array := [1; 3; 5];
              unique := false; compareFunc := defaultCompare |} in
  exists c,
    Clone 0%nat [o] = Ok (1%nat, [o] ++ [c]) /\
    ([o] ++ [c]) !! 0%nat = Some o /\
    ([o] ++ [c]) !! 1%nat = Some c /\
    array c = array o /\
    rwmutex.IsSafe (mu c) = rwmutex.IsSafe (mu o).
Proof.
  intros o.
  destruct (Clone_keeps_mode [o] 0%nat o)
    as (c & E & _ & H1 & H2 & _ & H3 & H4 & _).
  - reflexivity.
  - split; reflexivity.
  - vm_compute. discriminate.
  - exists c. repeat split; auto.
    apply H3. apply sorted_iff. cbn.
    repeat constructor; lia.
Defined.

(** C6, the claim as stated fails: the clone of a safe-mode structure is in
    safe mode, not in unsafe mode. *)
Lemma Clone_of_safe_is_safe :
  let o := {| mu := rwmutex.New []; array := [1; 3; 5];
              unique := false; compareFunc := defaultCompare |} in
  exists c,
    Clone 0%nat [o] = Ok (1%nat, [o; c]) /\
    rwmutex.IsSafe (mu o) = true /\
    rwmutex.IsSafe (mu c) = true /\
    ~ (rwmutex.IsSafe (mu c) = false <-> rwmutex.IsSafe (mu o) = true).
Proof.
  intros o. eexists. split; [vm_compute; reflexivity |].
  split; [reflexivity |]. split; [reflexivity |].
  cbn. intros [_ H]. specialize (H eq_refl). discriminate H.
Qed.

(** ** Chunk *)

Lemma elems_fold_append (cs : list (list Z)) :
  forall n, elems (fold_left append_chunk cs n) = elems n ++ cs.
Proof.
  induction cs as [| c cs IH]; intros n; cbn [fold_left].
  - rewrite app_nil_r. reflexivity.
  - rewrite IH. destruct n as [l |]; cbn; [rewrite <- app_assoc |]; reflexivity.
Qed.

Lemma ceil_div_pos (n size : Z) :
  1 <= size -> (0 < ceil_div n size <-> 0 < n).
Proof.
  intros Hs. unfold ceil_div.
  pose proof (Z.div_mod (n + size - 1) size).
  pose proof (Z.mod_pos_bound (n + size - 1) size).
  split; intros H'; nia.
Qed.

Lemma ceil_div_step (n size : Z) :
  1 <= size -> ceil_div (n - size) size = ceil_div n size - 1.
Proof.
  intros Hs. unfold ceil_div.
  replace (n - size + size - 1) with (n + size - 1 + (-1) * size) by ring.
  rewrite Z.div_add by lia. lia.
Qed.

(** The loop of [Chunk] entered at chunk [i] with the number of chunks that
    remain: it returns, the chunks it appends are the rest of the array cut
    every [size] elements. *)
Lemma Chunk_loop_spec (s : list Z) (size : Z) :
  1 <= size <= GoInt.max_int ->
  len s < 2 ^ 62 ->
  forall (k : nat) (i : Z) (n : option (list (list Z))),
    0 <= i ->
    k = Z.to_nat (ceil_div (len s - i * size) size) ->
    exists cs,
      Chunk_loop s size (len s) k i n = Ok (fold_left append_chunk cs n) /\
      concat cs = drop (Z.to_nat (i * size)) s /\
      length cs = k /\
      (forall (j : nat) c,
          cs !! j = Some c -> (S j < length cs)%nat -> len c = size) /\
      Forall (fun c => 0 < len c <= size) cs.
Proof.
  intros Hsize Hlen k. induction k as [| k IH]; intros i n Hi Hk.
  - exists []. cbn. repeat split; auto.
    + symmetry. apply drop_ge.
      assert (ceil_div (len s - i * size) size <= 0) by lia.
      assert (~ 0 < len s - i * size).
      { intros Hp. apply (ceil_div_pos _ size) in Hp; lia. }
      unfold len in *. lia.
    + intros j c Hj. discriminate Hj.
  - assert (Hrem : 0 < len s - i * size).
    { apply (ceil_div_pos _ size); lia. }
    assert (Hprod : GoInt.mul i size = i * size).
    { apply wrap_in_range. unfold GoInt.in_range, GoInt.min_int, GoInt.max_int.
      nia. }
    assert (Hnext : GoInt.mul (i + 1) size = i * size + size).
    { unfold GoInt.mul. replace ((i + 1) * size) with (i * size + size) by ring.
      apply wrap_in_range.
      unfold GoInt.in_range, GoInt.min_int, GoInt.max_int in *.
      destruct (Z.le_gt_cases size (len s)); [nia |].
      assert (i = 0) by nia. subst i. lia. }
    cbn [Chunk_loop]. rewrite Hprod, Hnext.
    set (p := i * size) in *.
    assert (Hp : 0 <= p) by (unfold p; nia).
    destruct (IH (i + 1) (append_chunk n
                (take (Z.to_nat ((if p + size >? len s then len s
                                  else p + size) - p))
                      (drop (Z.to_nat p) s))))
      as (cs & E & Hcat & Hcnt & Hfull & Hall); [lia | |].
    { replace (len s - (i + 1) * size) with (len s - p - size)
        by (unfold p; ring).
      rewrite ceil_div_step by lia. lia. }
    replace ((i + 1) * size) with (p + size) in Hcat by (unfold p; ring).
    destruct (Z.gtb_spec (p + size) (len s)) as [Hlast | Hmore].
    + (* the last chunk *)
      rewrite slice_Ok by lia. cbn [bind]. rewrite E.
      assert (cs = []).
      { apply nil_length_inv. rewrite Hcnt.
        assert (k = Z.to_nat (ceil_div (len s - p - size) size)).
        { rewrite ceil_div_step by lia. lia. }
        assert (~ 0 < ceil_div (len s - p - size) size).
        { intros Hc. apply ceil_div_pos in Hc; lia. }
        lia. }
      subst cs.
      exists [take (Z.to_nat (len s - p)) (drop (Z.to_nat p) s)].
      split; [reflexivity |]. split; [| split; [| split]].
      * cbn. rewrite app_nil_r. apply take_ge. rewrite length_drop.
        unfold len. lia.
      * cbn in Hcnt |- *. congruence.
      * intros j c _ Hj. cbn in Hj. lia.
      * constructor; [| constructor]. unfold len.
        rewrite length_take, length_drop. unfold len in *. lia.
    + (* a full chunk *)
      rewrite slice_Ok by lia. cbn [bind]. rewrite E.
      replace (p + size - p) with size in * by ring.
      set (c := take (Z.to_nat size) (drop (Z.to_nat p) s)) in *.
      assert (Hc : len c = size).
      { unfold c, len. rewrite length_take, length_drop. unfold len in *. lia. }
      exists (c :: cs).
      split; [reflexivity |]. split; [| split; [| split]].
      * cbn [concat]. rewrite Hcat. unfold c.
        replace (Z.to_nat (p + size)) with (Z.to_nat p + Z.to_nat size)%nat
          by lia.
        rewrite <- drop_drop. apply take_drop.
      * cbn. congruence.
      * intros [| j] c' Hj Hlt; cbn in Hj.
        -- congruence.
        -- apply (Hfull j c' Hj). cbn in Hlt. lia.
      * constructor; [lia | exact Hall].
Qed.

(** C7 (chunk law).  For a size of at least 1, [Chunk] returns chunks whose
    concatenation in order is the array, every chunk but the last having
    exactly [size] elements; for a size below 1 it returns nil. *)
Theorem Chunk_law (size : Z) (a : SortedIntArray) :
  idle a ->
  GoInt.in_range size ->
  len (array a) < 2 ^ 53 ->
  (1 <= size ->
   exists r,
     Chunk size a = Ok (r, a) /\
     concat (elems r) = array a /\
     (forall (j : nat) c,
         elems r !! j = Some c -> (S j < length (elems r))%nat ->
         len c = size) /\
     Forall (fun c => 0 < len c <= size) (elems r)) /\
  (size < 1 -> Chunk size a = Ok (None, a)).
Proof.
  intros Hidle Hrange Hlen. split.
  - intros Hsize. unfold Chunk.
    destruct (Z.ltb_spec size 1) as [? | _]; [lia |].
    destruct (RLock_RUnlock_idle a Hidle)
      as (a1 & E1 & Harr & _ & _ & _ & _ & E2).
    rewrite E1. cbn [bind]. rewrite Harr.
    destruct (Chunk_loop_spec (array a) size) with
      (k := Z.to_nat (ceil_div (len (array a)) size)) (i := 0)
      (n := @None (list (list Z)))
      as (cs & E & Hcat & _ & Hfull & Hall).
    { unfold GoInt.in_range in Hrange. lia. }
    { lia. }
    { lia. }
    { rewrite Z.mul_0_l, Z.sub_0_r. reflexivity. }
    rewrite E. cbn [bind]. rewrite E2. cbn [bind].
    exists (fold_left append_chunk cs None).
    rewrite elems_fold_append. cbn [elems app].
    repeat split; auto.
  - intros Hsize. unfold Chunk.
    destruct (Z.ltb_spec size 1) as [_ | ?]; [reflexivity | lia].
Qed.

Lemma Chunk_law_witness :
  let a := {| mu := rwmutex.New []; array := [1; 2; 3; 4; 5];
              unique := false; compareFunc := defaultCompare |} in
  (exists r,
     Chunk 2 a = Ok (r, a) /\
     concat (elems r) = array a /\
     (forall (j : nat) c,
         elems r !! j = Some c -> (S j < length (elems r))%nat ->
         len c = 2) /\
     Forall (fun c => 0 < len c <= 2) (elems r)) /\
  Chunk 0 a = Ok (None, a).
Proof.
  intros a.
  assert (Hidle : idle a) by (split; reflexivity).
  assert (Hlen : len (array a) < 2 ^ 53) by (vm_compute; reflexivity).
  split.
  - apply (Chunk_law 2 a); auto; try lia.
    unfold GoInt.in_range, GoInt.min_int, GoInt.max_int. lia.
  - apply (Chunk_law 0 a); auto; try lia.
    unfold GoInt.in_range, GoInt.min_int, GoInt.max_int. lia.
Defined.

(** ** Bulk extraction *)

Lemma PopLefts_clamped (size : Z) (a : SortedIntArray) :
  idle a -> 0 <= size ->
  PopLefts size a =
  Ok (take (Z.to_nat size) (array a),
      set_array (drop (Z.to_nat size) (array a)) a).
Proof.
  intros Hidle Hsize. unfold PopLefts.
  destruct (Lock_Unlock_idle a (drop (Z.to_nat size) (array a)) Hidle)
    as (a1 & E1 & Harr & _ & _ & E2).
  rewrite E1. cbn [bind]. rewrite Harr.
  pose proof (len_nonneg (array a)) as Hlen.
  destruct (Z.gtb_spec size (len (array a))) as [Hbig | Hsmall].
  - rewrite slice_Ok, slice_from_Ok by lia. cbn [bind].
    rewrite Z.sub_0_r, drop_0.
    replace (drop (Z.to_nat (len (array a))) (array a))
      with (drop (Z.to_nat size) (array a))
      by (rewrite !drop_ge by (unfold len in *; lia); reflexivity).
    rewrite E2. cbn [bind].
    rewrite !take_ge by (unfold len in *; lia). reflexivity.
  - rewrite slice_Ok, slice_from_Ok by lia. cbn [bind].
    rewrite Z.sub_0_r, drop_0, E2. reflexivity.
Qed.

Lemma PopRights_clamped (size : Z) (a : SortedIntArray) :
  idle a -> len (array a) <= max_slice_len -> 0 <= size <= GoInt.max_int ->
  PopRights size a =
  Ok (drop (Z.to_nat (len (array a) - size)) (array a),
      set_array (take (Z.to_nat (len (array a) - size)) (array a)) a).
Proof.
  intros Hidle Hmax Hsize. unfold PopRights.
  destruct (Lock_Unlock_idle a
              (take (Z.to_nat (len (array a) - size)) (array a)) Hidle)
    as (a1 & E1 & Harr & _ & _ & E2).
  rewrite E1. cbn [bind]. rewrite Harr.
  pose proof (len_nonneg (array a)) as Hlen.
  unfold GoInt.sub. rewrite wrap_in_range.
  2: { unfold GoInt.in_range, GoInt.min_int, GoInt.max_int, max_slice_len in *.
       lia. }
  destruct (Z.ltb_spec (len (array a) - size) 0) as [Hneg | Hpos].
  - rewrite slice_from_Ok, slice_to_Ok by lia. cbn [bind].
    replace (Z.to_nat (len (array a) - size)) with (Z.to_nat 0) in * by lia.
    rewrite E2. reflexivity.
  - rewrite slice_from_Ok, slice_to_Ok by lia. cbn [bind].
    rewrite E2. reflexivity.
Qed.

Lemma Range_clamped (start end_ : Z) (a : SortedIntArray) :
  idle a -> len (array a) <= max_slice_len -> 0 <= end_ ->
  exists r,
    Range start end_ a = Ok (r, a) /\
    (r = None <-> start > len (array a) \/ start > end_) /\
    elems r =
      take (Z.to_nat (Z.min end_ (len (array a)) - Z.max start 0))
           (drop (Z.to_nat (Z.max start 0)) (array a)).
Proof.
  intros Hidle Hmax Hend. unfold Range.
  destruct (RLock_RUnlock_idle a Hidle)
    as (a1 & E1 & Harr & _ & _ & Hsafe & Hw & E2).
  rewrite E1. cbn [bind]. rewrite Harr.
  pose proof (len_nonneg (array a)) as Hlen.
  destruct (Z.gtb_spec start (len (array a))) as [Hout | Hin];
    [| destruct (Z.gtb_spec start end_) as [Hrev | Hord]]; cbn [orb].
  - rewrite E2. cbn [bind]. exists None. repeat split; try lia.
    cbn. rewrite drop_ge by (unfold len in *; lia).
    symmetry. apply take_nil.
  - rewrite E2. cbn [bind]. exists None. repeat split; try lia.
    cbn. replace (Z.to_nat (Z.min end_ (len (array a)) - Z.max start 0))
      with 0%nat by lia.
    reflexivity.
  - set (start' := if start <? 0 then 0 else start).
    set (end' := if end_ >? len (array a) then len (array a) else end_).
    assert (Hs' : start' = Z.max start 0).
    { unfold start'. destruct (Z.ltb_spec start 0); lia. }
    assert (He' : end' = Z.min end_ (len (array a))).
    { unfold end'. destruct (Z.gtb_spec end_ (len (array a))); lia. }
    rewrite <- Hs', <- He'.
    assert (Hb : 0 <= start' <= end' /\ end' <= len (array a)) by lia.
    exists (Some (take (Z.to_nat (end' - start'))
                       (drop (Z.to_nat start') (array a)))).
    split; [| split; [| reflexivity]].
    2: { split; [discriminate | lia]. }
    destruct (rwmutex.IsSafe (mu a1)).
    + destruct (RLock_RUnlock_free a1 Hw)
        as (a2 & E3 & Harr2 & _ & _ & _ & _ & E4).
      rewrite E3. cbn [bind]. unfold GoInt.sub. rewrite wrap_in_range.
      2: { unfold GoInt.in_range, GoInt.min_int, GoInt.max_int,
             max_slice_len in *. lia. }
      rewrite make_Ok by lia. cbn [bind]. rewrite Harr2, Harr.
      rewrite slice_Ok by lia. cbn [bind]. rewrite E4. cbn [bind].
      rewrite E2. cbn [bind]. rewrite copy_exact; [reflexivity |].
      rewrite length_replicate, length_take, length_drop.
      unfold len in *. lia.
    + rewrite slice_Ok by lia. cbn [bind]. rewrite E2. reflexivity.
Qed.

Lemma SubSlice_beyond_length (offset size : Z) (a : SortedIntArray) :
  idle a -> offset > len (array a) -> SubSlice offset size a = Ok (None, a).
Proof.
  intros Hidle Hoff. unfold SubSlice.
  destruct (RLock_RUnlock_idle a Hidle)
    as (a1 & E1 & Harr & _ & _ & _ & _ & E2).
  rewrite E1. cbn [bind]. rewrite Harr.
  destruct (Z.gtb_spec offset (len (array a))); [| lia].
  rewrite E2. reflexivity.
Qed.

(** In safe mode [SubSlice] returns the [size] elements from [offset] on, or
    the remainder of the array when fewer are left. *)
Lemma SubSlice_safe (offset size : Z) (a : SortedIntArray) :
  idle a -> rwmutex.IsSafe (mu a) = true ->
  len (array a) <= max_slice_len ->
  0 <= offset <= len (array a) -> 0 <= size ->
  offset + size <= GoInt.max_int ->
  SubSlice offset size a =
  Ok (Some (take (Z.to_nat size) (drop (Z.to_nat offset) (array a))), a).
Proof.
  intros Hidle Hsafe Hmax Hoff Hsize Hsum. unfold SubSlice.
  destruct (RLock_RUnlock_idle a Hidle)
    as (a1 & E1 & Harr & _ & _ & Hsafe1 & _ & E2).
  rewrite E1. cbn [bind]. rewrite Harr, Hsafe1, Hsafe.
  destruct (Z.gtb_spec offset (len (array a))); [lia |].
  unfold GoInt.add, GoInt.sub. rewrite !wrap_in_range.
  2, 3: unfold GoInt.in_range, GoInt.min_int, GoInt.max_int,
          max_slice_len in *; lia.
  destruct (Z.gtb_spec (offset + size) (len (array a))) as [Hclamp | Hfit].
  - rewrite make_Ok, slice_from_Ok by lia. cbn [bind]. rewrite E2. cbn [bind].
    rewrite copy_shorter
      by (rewrite length_replicate, length_drop; unfold len in *; lia).
    rewrite length_replicate.
    rewrite !take_ge by (rewrite length_drop; unfold len in *; lia).
    reflexivity.
  - rewrite make_Ok, slice_from_Ok by lia. cbn [bind]. rewrite E2. cbn [bind].
    rewrite copy_shorter
      by (rewrite length_replicate, length_drop; unfold len in *; lia).
    rewrite length_replicate. reflexivity.
Qed.

(** In unsafe mode [SubSlice] returns everything from [offset] on, whatever
    the size. *)
Lemma SubSlice_unsafe (offset size : Z) (a : SortedIntArray) :
  idle a -> rwmutex.IsSafe (mu a) = false ->
  0 <= offset <= len (array a) ->
  SubSlice offset size a = Ok (Some (drop (Z.to_nat offset) (array a)), a).
Proof.
  intros Hidle Hsafe Hoff. unfold SubSlice.
  destruct (RLock_RUnlock_idle a Hidle)
    as (a1 & E1 & Harr & _ & _ & Hsafe1 & _ & E2).
  rewrite E1. cbn [bind]. rewrite Harr, Hsafe1, Hsafe.
  destruct (Z.gtb_spec offset (len (array a))); [lia |].
  rewrite slice_from_Ok by lia. cbn [bind]. rewrite E2. reflexivity.
Qed.

Lemma store_Ok (dst : list Z) (i x : Z) :
  0 <= i < len dst ->
  store dst i x = Ok (<[Z.to_nat i := x]> dst).
Proof.
  intros H. unfold store.
  destruct (Z.leb_spec 0 i), (Z.ltb_spec i (len dst)); simpl; auto; lia.
Qed.

(** The loop of [Rand] with enough indices left to fill the result. *)
Lemma Rand_loop_spec (s : list Z) (size : Z) :
  1 <= size <= GoInt.max_int ->
  forall (perm : list Z) (i : Z) (n : list Z),
    0 <= i < size -> len n = size -> size - i <= len perm ->
    Forall (fun v => 0 <= v < len s) perm ->
    exists r,
      Rand_loop s size perm i n = Ok r /\ len r = size.
Proof.
  intros Hsize perm. induction perm as [| v perm IH]; intros i n Hi Hn Hp Hall.
  - unfold len in Hp. cbn in Hp. lia.
  - apply Forall_cons in Hall as [Hv Hall]. cbn [Rand_loop].
    destruct (index_Ok s v Hv) as (x & E & _). rewrite E. cbn [bind].
    rewrite store_Ok by lia. cbn [bind].
    unfold GoInt.sub. rewrite wrap_in_range
      by (unfold GoInt.in_range, GoInt.min_int, GoInt.max_int in *; lia).
    assert (Hn' : len (<[Z.to_nat i := x]> n) = size).
    { unfold len in *. rewrite length_insert. exact Hn. }
    destruct (Z.eqb_spec i (size - 1)) as [Hlast | Hmore].
    + eexists. split; [reflexivity | exact Hn'].
    + apply IH; auto; try lia. unfold len in *. cbn [length] in Hp. lia.
Qed.

Lemma Rand_clamped (size : Z) (perm : list Z) (a : SortedIntArray) :
  idle a -> len (array a) <= max_slice_len -> 1 <= size ->
  Permutation perm (seqZ 0 (len (array a))) ->
  exists r,
    Rand size perm a = Ok (r, a) /\ len r = Z.min size (len (array a)).
Proof.
  intros Hidle Hmax Hsize Hperm. unfold Rand.
  destruct (RLock_RUnlock_idle a Hidle)
    as (a1 & E1 & Harr & _ & _ & _ & _ & E2).
  rewrite E1. cbn [bind]. rewrite Harr.
  pose proof (len_nonneg (array a)) as Hlen.
  set (size' := if size >? len (array a) then len (array a) else size).
  assert (Hs' : size' = Z.min size (len (array a))).
  { unfold size'. destruct (Z.gtb_spec size (len (array a))); lia. }
  assert (Hplen : len perm = len (array a)).
  { unfold len at 1. rewrite (Permutation_length Hperm), length_seqZ. lia. }
  rewrite make_Ok by lia. cbn [bind].
  destruct (Z.eq_dec (len (array a)) 0) as [Hz | Hnz].
  - assert (perm = []).
    { apply nil_length_inv. unfold len in *. lia. }
    subst perm. cbn [Rand_loop bind]. rewrite E2. cbn [bind].
    eexists. split; [reflexivity |].
    unfold len in *. rewrite length_replicate. lia.
  - destruct (Rand_loop_spec (array a) size') with
      (perm := perm) (i := 0) (n := replicate (Z.to_nat size') 0)
      as (r & E & Hr).
    + unfold GoInt.max_int, max_slice_len in *. lia.
    + lia.
    + unfold len. rewrite length_replicate. lia.
    + lia.
    + apply Forall_forall. intros v Hv. rewrite Hperm in Hv.
      apply list_elem_of_lookup in Hv as [j Hj].
      apply lookup_seqZ in Hj. lia.
    + rewrite E. cbn [bind]. rewrite E2. cbn [bind].
      exists r. split; [reflexivity | lia].
Qed.

(** C8 (SubSlice in both modes): the code departs from it.  In unsafe mode
    the clamped size is computed and then ignored: on [1, 2, 3] the call
    [SubSlice(0, 1)] returns the whole array, where the safe mode returns
    [1]. *)
Theorem SubSlice_unsafe_ignores_size :
  (let* a := NewSortedIntArrayFrom [1; 2; 3] [true] in
   let* r := SubSlice 0 1 a in
   Ok r.1) = Ok (Some [1; 2; 3]) /\
  (let* a := NewSortedIntArrayFrom [1; 2; 3] [false] in
   let* r := SubSlice 0 1 a in
   Ok r.1) = Ok (Some [1]).
Proof. split; vm_compute; reflexivity. Qed.

(** C9 (clamped, not failed), as the code has it.  With the lock free:
    [PopLefts] and [PopRights] return for every size of at least 0, a size
    beyond the length taking the whole array; [Range] returns for every
    start and every end of at least 0; [SubSlice] returns for every offset
    and size of at least 0 whose sum is an [int]; [Rand] returns for every
    size of at least 1, given a permutation of the indices.  Each result is
    cut down to what the array holds. *)
Theorem clamped_calls_return (a : SortedIntArray) :
  idle a ->
  len (array a) <= max_slice_len ->
  (forall size, 0 <= size ->
     PopLefts size a =
     Ok (take (Z.to_nat size) (array a),
         set_array (drop (Z.to_nat size) (array a)) a)) /\
  (forall size, 0 <= size <= GoInt.max_int ->
     PopRights size a =
     Ok (drop (Z.to_nat (len (array a) - size)) (array a),
         set_array (take (Z.to_nat (len (array a) - size)) (array a)) a)) /\
  (forall start end_, 0 <= end_ ->
     exists r,
       Range start end_ a = Ok (r, a) /\
       elems r =
         take (Z.to_nat (Z.min end_ (len (array a)) - Z.max start 0))
              (drop (Z.to_nat (Z.max start 0)) (array a))) /\
  (forall offset size,
     0 <= offset -> 0 <= size -> offset + size <= GoInt.max_int ->
     exists r,
       SubSlice offset size a = Ok (r, a) /\
       len (elems r) <= len (array a)) /\
  (forall size perm,
     1 <= size -> Permutation perm (seqZ 0 (len (array a))) ->
     exists r,
       Rand size perm a = Ok (r, a) /\
       len r = Z.min size (len (array a))).
Proof.
  intros Hidle Hmax. repeat split.
  - intros size Hsize. apply PopLefts_clamped; auto.
  - intros size Hsize. apply PopRights_clamped; auto.
  - intros start end_ Hend.
    destruct (Range_clamped start end_ a Hidle Hmax Hend) as (r & E & _ & Hr).
    exists r. split; assumption.
  - intros offset size Hoff Hsize Hsum.
    pose proof (len_nonneg (array a)) as Hlen.
    destruct (Z.le_gt_cases offset (len (array a))) as [Hin | Hout].
    + destruct (rwmutex.IsSafe (mu a)) eqn:Hsafe.
      * eexists. split; [apply SubSlice_safe; auto; lia |].
        cbn. unfold len. rewrite length_take, length_drop. lia.
      * eexists. split; [apply SubSlice_unsafe; auto; lia |].
        cbn. unfold len. rewrite length_drop. lia.
    + exists None. split; [apply SubSlice_beyond_length; auto; lia |].
      cbn. exact Hlen.
  - intros size perm Hsize Hperm. apply Rand_clamped; auto.
Qed.

Lemma clamped_calls_return_witness :
  let a := {| mu := rwmutex.New []; array := [10; 20; 30];
              unique := false; compareFunc := defaultCompare |} in
  PopLefts 5 a = Ok ([10; 20; 30], set_array [] a) /\
  PopRights 2 a = Ok ([20; 30], set_array [10] a) /\
  (exists r, Range (-2) 2 a = Ok (r, a) /\ elems r = [10; 20]) /\
  (exists r, SubSlice 1 5 a = Ok (r, a) /\ len (elems r) <= 3) /\
  (exists r, Rand 7 [2; 0; 1] a = Ok (r, a) /\ len r = 3).
Proof.
  intros a.
  assert (Hidle : idle a) by (split; reflexivity).
  assert (Hmax : len (array a) <= max_slice_len)
    by (vm_compute; discriminate).
  destruct (clamped_calls_return a Hidle Hmax) as (H1 & H2 & H3 & H4 & H5).
  split; [| split; [| split; [| split]]].
  - apply (H1 5). lia.
  - apply (H2 2). unfold GoInt.max_int. lia.
  - apply (H3 (-2) 2). lia.
  - apply (H4 1 5); unfold GoInt.max_int; lia.
  - apply (H5 7 [2; 0; 1]); [lia |].
    change (seqZ 0 (len (array a))) with [0; 1; 2].
    apply (perm_trans (perm_swap 0 2 [1])).
    apply perm_skip. apply perm_swap.
Defined.

(** C9, the claim as stated fails: a negative size makes [PopLefts] slice
    [a.array[0:-1]], which panics. *)
Lemma PopLefts_negative_panics :
  let a := {| mu := rwmutex.New []; array := [10; 20; 30];
              unique := false; compareFunc := defaultCompare |} in
  PopLefts (-1) a = Panic.
Proof. vm_compute. reflexivity. Qed.

(** Arguments outside the ranges of [clamped_calls_return], on the array
    [10, 20, 30] in safe mode: a negative size in [PopRights] and [SubSlice],
    a negative end after a negative start in [Range], and size 0 in [Rand]
    (the first store [n[0]] is out of range) all panic. *)
Lemma out_of_range_arguments_panic :
  let a := {| mu := rwmutex.New []; array := [10; 20; 30];
              unique := false; compareFunc := defaultCompare |} in
  PopRights (-1) a = Panic /\
  SubSlice 0 (-1) a = Panic /\
  Range (-2) (-1) a = Panic /\
  Rand 0 [2; 0; 1] a = Panic.
Proof. repeat split; vm_compute; reflexivity. Qed.

(** * Further properties of the code *)

(** ** Shared facts *)

Lemma nonempty_len_pos {A : Type} (s : list A) : s <> [] -> 0 < len s.
Proof. unfold len. destruct s; [congruence | cbn; lia]. Qed.

(** Taking the read lock around the search does not change its answer. *)
Lemma binSearch_lock_same (value : Z) (a : SortedIntArray) :
  idle a -> binSearch value true a = binSearch value false a.
Proof.
  intros Hidle. unfold binSearch.
  destruct (len (array a) =? 0); [reflexivity |].
  destruct (RLock_RUnlock_idle a Hidle)
    as (a1 & E1 & Harr & _ & Hcf & _ & _ & E2).
  rewrite E1. cbn [bind]. rewrite Hcf, Harr.
  destruct (binSearch_loop (compareFunc a) (array a) value
              (length (array a)) 0 (len (array a) - 1) 0 (-2));
    cbn [bind]; try reflexivity.
  rewrite E2. reflexivity.
Qed.

(** The elements after the loop of [Add]. *)
Lemma Add_loop_content (values : list Z) :
  forall a : SortedIntArray,
    compareFunc a = defaultCompare ->
    StronglySorted Z.le (array a) ->
    exists s,
      Add_loop values a = Ok (set_array s a) /\
      StronglySorted Z.le s /\
      (forall x, x ∈ s <-> x ∈ array a \/ x ∈ values) /\
      (unique a = false -> Permutation s (array a ++ values)).
Proof.
  induction values as [| value rest IH]; intros a Hcf Hs.
  - exists (array a). split; [destruct a; reflexivity |].
    split; [exact Hs |]. split.
    + intros x. rewrite elem_of_nil. tauto.
    + intros _. rewrite app_nil_r. reflexivity.
  - destruct (Add_loop_step value a Hcf Hs) as (s1 & Estep & Hs1 & Hcase).
    destruct (IH (set_array s1 a) Hcf Hs1) as (s & E & Hsorted & Hel & Hperm).
    exists s. rewrite Estep, E. split; [reflexivity |].
    split; [exact Hsorted |]. cbn in Hel, Hperm. split.
    + intros x. rewrite Hel, elem_of_cons.
      destruct Hcase as [(_ & Hin & ->) | (_ & Hp)].
      * split; [tauto |]. intros [? | [-> | ?]]; auto.
      * rewrite Hp, elem_of_cons. tauto.
    + intros Hu. rewrite (Hperm Hu).
      destruct Hcase as [(Hu' & _) | (_ & Hp)]; [congruence |].
      rewrite Hp. cbn. rewrite <- Permutation_middle. reflexivity.
Qed.

Lemma Add_content (values : list Z) (a : SortedIntArray) :
  valid a ->
  exists s,
    Add values a = Ok (set_array s a) /\
    StronglySorted Z.le s /\
    (forall x, x ∈ s <-> x ∈ array a \/ x ∈ values) /\
    (unique a = false -> Permutation s (array a ++ values)).
Proof.
  intros (Hidle & Hcf & Hs). unfold Add.
  destruct values as [| v values].
  - exists (array a). cbn. split; [destruct a; reflexivity |].
    split; [exact Hs |]. split.
    + intros x. rewrite elem_of_nil. tauto.
    + intros _. rewrite app_nil_r. reflexivity.
  - change (len (v :: values) =? 0) with
      (Z.pos (Pos.of_succ_nat (length values)) =? 0).
    cbn [Z.eqb].
    destruct (Lock_Unlock_idle a (array a) Hidle)
      as (a1 & E1 & Harr & Hu & Hcf1 & _).
    rewrite E1. cbn [bind].
    destruct (Add_loop_content (v :: values) a1) as (s & E & H1 & H2 & H3).
    { congruence. }
    { rewrite Harr. exact Hs. }
    rewrite E. cbn [bind].
    destruct (Lock_Unlock_idle a s Hidle) as (a1' & E1' & _ & _ & _ & E2).
    assert (a1' = a1) by congruence. subst a1'.
    exists s. rewrite Harr, Hu in *. repeat split; auto; apply H2.
Qed.

Lemma StronglySorted_delete (s : list Z) (i : nat) :
  StronglySorted Z.le s -> StronglySorted Z.le (delete i s).
Proof.
  intros Hs. rewrite delete_take_drop.
  rewrite <- (take_drop i s) in Hs.
  apply StronglySorted_app in Hs as (H12 & H1 & H2).
  apply StronglySorted_app. repeat split; auto.
  - intros x y Hx Hy. apply (H12 x y Hx).
    apply list_elem_of_lookup in Hy as [j Hj].
    rewrite lookup_drop in Hj. apply list_elem_of_lookup.
    exists (S j). rewrite lookup_drop.
    replace (i + S j)%nat with (S i + j)%nat by lia. exact Hj.
  - rewrite <- (take_drop 1 (drop i s)) in H2.
    apply StronglySorted_app in H2 as (_ & _ & H2).
    rewrite drop_drop in H2. replace (i + 1)%nat with (S i) in H2 by lia.
    exact H2.
Qed.

(** [Remove] at an index of the array, in each of its three branches. *)
Lemma Remove_in_range (idx : Z) (a : SortedIntArray) :
  idle a -> len (array a) <= max_slice_len -> 0 <= idx < len (array a) ->
  exists x,
    array a !! Z.to_nat idx = Some x /\
    Remove idx a =
    Ok (x, set_array (delete (Z.to_nat idx) (array a)) a).
Proof.
  intros Hidle Hmax Hidx. unfold Remove.
  destruct (Lock_Unlock_idle a (delete (Z.to_nat idx) (array a)) Hidle)
    as (a1 & E1 & Harr & _ & _ & E2).
  rewrite E1. cbn [bind]. rewrite Harr.
  destruct (index_Ok (array a) idx Hidx) as (x & Ex & Hx).
  exists x. split; [exact Hx |].
  rewrite delete_take_drop in E2 |- *.
  destruct (Z.eqb_spec idx 0) as [-> | Hnz].
  - rewrite Ex. cbn [bind]. rewrite slice_from_Ok by lia. cbn [bind].
    change (Z.to_nat 0) with 0%nat in *.
    change (Z.to_nat 1) with 1%nat. rewrite take_0 in E2 |- *.
    cbn [app] in E2 |- *. rewrite E2. reflexivity.
  - destruct (Z.eqb_spec idx (len (array a) - 1)) as [Hlast | Hmid].
    + rewrite Ex. cbn [bind]. rewrite slice_to_Ok by lia. cbn [bind].
      rewrite (drop_ge (array a) (S (Z.to_nat idx))) in E2 |- *
        by (unfold len in *; lia).
      rewrite app_nil_r in E2 |- *. rewrite E2. reflexivity.
    + rewrite Ex. cbn [bind]. rewrite slice_to_Ok by lia. cbn [bind].
      unfold GoInt.add. rewrite wrap_in_range.
      2: { unfold GoInt.in_range, GoInt.min_int, GoInt.max_int,
             max_slice_len in *. lia. }
      rewrite slice_from_Ok by lia. cbn [bind].
      replace (Z.to_nat (idx + 1)) with (S (Z.to_nat idx)) by lia.
      rewrite E2. reflexivity.
Qed.

(** Validity of a concrete state, by computation. *)
Ltac valid_by_computation :=
  split; [split; reflexivity | split; [reflexivity | repeat constructor; lia]].

(** ** Search, Get and Contains *)

(** X1.  On a sorted array, the index [Search] returns for a value that
    occurs is an index at which [Get] returns that value; neither call
    changes the structure. *)
Theorem Get_of_Search_present (value : Z) (a : SortedIntArray) :
  valid a -> value ∈ array a ->
  exists i,
    Search value a = Ok (i, a) /\ 0 <= i < len (array a) /\
    Get i a = Ok (value, a).
Proof.
  intros Hv Hin. destruct (Search_present value a Hv Hin) as (i & E & Hi & Hx).
  exists i. split; [exact E |]. split; [exact Hi |].
  destruct Hv as (Hidle & _). unfold Get.
  destruct (RLock_RUnlock_idle a Hidle)
    as (a1 & E1 & Harr & _ & _ & _ & _ & E2).
  rewrite E1. cbn [bind]. rewrite Harr.
  destruct (index_Ok (array a) i Hi) as (x & Ex & Hx').
  rewrite Ex. cbn [bind]. rewrite E2. cbn. congruence.
Qed.

Lemma Get_of_Search_present_witness :
  let a := {| mu := rwmutex.New []; array := [3; 3; 5; 8];
              unique := false; compareFunc := defaultCompare |} in
  exists i,
    Search 8 a = Ok (i, a) /\ 0 <= i < len (array a) /\
    Get i a = Ok (8, a).
Proof.
  intros a. apply (Get_of_Search_present 8 a).
  - valid_by_computation.
  - apply list_elem_of_In. cbn. tauto.
Defined.

(** X2.  On a sorted array [Search] returns the sentinel -1 exactly when the
    array is empty; on a non-empty array it returns an index of the array,
    whether the value occurs or not. *)
Theorem Search_sentinel_iff_empty (value : Z) (a : SortedIntArray) :
  valid a ->
  exists i,
    Search value a = Ok (i, a) /\
    (i = -1 <-> array a = []) /\
    (array a <> [] -> 0 <= i < len (array a)).
Proof.
  intros Hv. destruct (array a) as [| e t] eqn:Harr.
  - exists (-1). split; [apply Search_empty; exact Harr |].
    split; [tauto | congruence].
  - assert (Hne : array a <> []) by (rewrite Harr; discriminate).
    destruct (Search_nonempty_index value a Hv Hne) as (i & E & Hi).
    exists i. split; [exact E |]. rewrite Harr in Hi. split.
    + split; [lia | discriminate].
    + intros _. exact Hi.
Qed.

Lemma Search_sentinel_iff_empty_witness :
  let a := {| mu := rwmutex.New []; array := [3; 3; 5; 8];
              unique := false; compareFunc := defaultCompare |} in
  exists i,
    Search 9 a = Ok (i, a) /\
    (i = -1 <-> array a = []) /\
    (array a <> [] -> 0 <= i < len (array a)).
Proof.
  intros a. apply (Search_sentinel_iff_empty 9 a). valid_by_computation.
Defined.

(** X3.  What [Contains] answers on a non-empty sorted array: true for every
    value below all elements, although it does not occur, and false for
    every value that occurs and differs from the first element. *)
Theorem Contains_answers (value : Z) (a : SortedIntArray) :
  valid a -> array a <> [] ->
  ((forall x, x ∈ array a -> value < x) ->
   Contains value a = Ok (true, a)) /\
  (forall e, array a !! 0%nat = Some e -> e <> value -> value ∈ array a ->
   Contains value a = Ok (false, a)).
Proof.
  intros Hv Hne. split.
  - intros Hbelow. destruct Hv as (Hidle & Hcf & Hs).
    destruct (binSearch_sorted value a Hcf Hs Hne)
      as (mid & x & E & Hm & Hx & Hl & _).
    assert (Hvx : value < x).
    { apply Hbelow. eapply list_elem_of_lookup_2. exact Hx. }
    assert (mid = 0).
    { destruct (Z.eq_dec mid 0) as [| Hnz]; [assumption | exfalso].
      destruct (lookup_lt_is_Some_2 (array a) 0) as [y Hy].
      { apply nonempty_len_pos in Hne. unfold len in Hne. lia. }
      assert (y < value) by (apply (Hl Hvx 0%nat y Hy); lia).
      assert (value < y) by (apply Hbelow; eapply list_elem_of_lookup_2; eauto).
      lia. }
    subst mid. unfold Contains, Search.
    rewrite (binSearch_lock_same value a Hidle), E. reflexivity.
  - intros e He Hdiff Hin.
    destruct (Search_present value a Hv Hin) as (i & E & Hi & Hx).
    unfold Contains. rewrite E. cbn.
    destruct (Z.eqb_spec i 0) as [-> | _]; [| reflexivity].
    change (Z.to_nat 0) with 0%nat in Hx. congruence.
Qed.

Lemma Contains_answers_witness :
  let a := {| mu := rwmutex.New []; array := [3; 5; 8];
              unique := false; compareFunc := defaultCompare |} in
  Contains 1 a = Ok (true, a) /\ Contains 8 a = Ok (false, a).
Proof.
  intros a.
  assert (Hv : valid a) by valid_by_computation.
  assert (Hne : array a <> []) by discriminate.
  split.
  - apply (Contains_answers 1 a Hv Hne).
    intros x Hx. apply list_elem_of_In in Hx. cbn in Hx.
    destruct Hx as [<- | [<- | [<- | []]]]; lia.
  - apply (Contains_answers 8 a Hv Hne) with (e := 3).
    + reflexivity.
    + lia.
    + apply list_elem_of_In. cbn. tauto.
Defined.

(** ** Add, Search and Remove together *)

(** X4.  With the unique flag off, [Add] on a sorted array leaves the
    ascending arrangement of the old elements and all the new values: no
    element is lost and the length grows by the number of values. *)
Theorem Add_without_unique (values : list Z) (a : SortedIntArray) :
  valid a -> unique a = false ->
  Add values a = Ok (set_array (sort_Ints (array a ++ values)) a) /\
  len (sort_Ints (array a ++ values)) = len (array a) + len values.
Proof.
  intros Hv Hu. destruct (Add_content values a Hv) as (s & E & Hs & _ & Hp).
  specialize (Hp Hu). split.
  - rewrite E. do 2 f_equal. symmetry.
    apply (StronglySorted_unique Z.le); auto.
    + apply sort_Ints_sorted.
    + rewrite sort_Ints_perm, Hp. reflexivity.
  - unfold len. rewrite (Permutation_length (sort_Ints_perm _)), length_app.
    lia.
Qed.

Lemma Add_without_unique_witness :
  let a := {| mu := rwmutex.New []; array := [3; 5];
              unique := false; compareFunc := defaultCompare |} in
  Add [8; 3] a = Ok (set_array (sort_Ints (array a ++ [8; 3])) a) /\
  len (sort_Ints (array a ++ [8; 3])) = len (array a) + len [8; 3].
Proof.
  intros a. apply (Add_without_unique [8; 3] a).
  - valid_by_computation.
  - reflexivity.
Defined.

(** X5.  After [Add] on a sorted array, whatever the unique flag, the array
    holds exactly the old elements and the added values, and [Search] finds
    each of them at an index holding it. *)
Theorem Add_then_Search (values : list Z) (a : SortedIntArray) :
  valid a ->
  exists s,
    Add values a = Ok (set_array s a) /\
    (forall x, x ∈ s <-> x ∈ array a \/ x ∈ values) /\
    (forall x, x ∈ array a \/ x ∈ values ->
       exists i, Search x (set_array s a) = Ok (i, set_array s a) /\
                 s !! Z.to_nat i = Some x).
Proof.
  intros Hv. destruct (Add_content values a Hv) as (s & E & Hs & Hel & _).
  exists s. split; [exact E |]. split; [exact Hel |].
  intros x Hx.
  assert (Hv' : valid (set_array s a)).
  { destruct Hv as (H1 & H2 & _). repeat split; auto; apply H1. }
  destruct (Search_present x (set_array s a) Hv') as (i & Ei & _ & Hi).
  { cbn. apply Hel. exact Hx. }
  exists i. split; assumption.
Qed.

Lemma Add_then_Search_witness :
  let a := {| mu := rwmutex.New [true]; array := [3; 5];
              unique := true; compareFunc := defaultCompare |} in
  exists s,
    Add [8; 3] a = Ok (set_array s a) /\
    (forall x, x ∈ s <-> x ∈ array a \/ x ∈ [8; 3]) /\
    (forall x, x ∈ array a \/ x ∈ [8; 3] ->
       exists i, Search x (set_array s a) = Ok (i, set_array s a) /\
                 s !! Z.to_nat i = Some x).
Proof.
  intros a. apply (Add_then_Search [8; 3] a). valid_by_computation.
Defined.

(** X6.  Round trip with the unique flag off: after [Add(v)] on a sorted
    array, [Search(v)] returns an index at which [Remove] returns [v] and
    leaves the structure exactly as it was before the [Add]. *)
Theorem Add_Search_Remove_round_trip (v : Z) (a : SortedIntArray) :
  valid a -> unique a = false -> len (array a) < max_slice_len ->
  exists a1 i,
    Add [v] a = Ok a1 /\
    Search v a1 = Ok (i, a1) /\
    Remove i a1 = Ok (v, a).
Proof.
  intros Hv Hu Hmax.
  destruct (Add_content [v] a Hv) as (s & E & Hs & Hel & Hp).
  specialize (Hp Hu).
  assert (Hv' : valid (set_array s a)).
  { destruct Hv as (H1 & H2 & _). repeat split; auto; apply H1. }
  destruct (Search_present v (set_array s a) Hv') as (i & Ei & Hi & Hx).
  { cbn. apply Hel. right. now left. }
  cbn in Hi, Hx.
  assert (Hlen : len s = len (array a) + 1).
  { unfold len. rewrite (Permutation_length Hp), length_app. cbn. lia. }
  destruct (Remove_in_range i (set_array s a)) as (x & Hx' & Er).
  { apply Hv'. }
  { cbn. lia. }
  { exact Hi. }
  cbn in Hx', Er. assert (x = v) by congruence. subst x.
  exists (set_array s a), i. split; [exact E |]. split; [exact Ei |].
  rewrite Er. do 2 f_equal.
  assert (Hback : delete (Z.to_nat i) s = array a).
  { apply (StronglySorted_unique Z.le).
    - apply StronglySorted_delete. exact Hs.
    - apply Hv.
    - apply (Permutation_cons_inv (a := v)).
      rewrite <- (delete_Permutation s (Z.to_nat i) v Hx), Hp.
      rewrite <- Permutation_cons_append. reflexivity. }
  rewrite Hback. destruct a; reflexivity.
Qed.

Lemma Add_Search_Remove_round_trip_witness :
  let a := {| mu := rwmutex.New []; array := [3; 5; 5; 8];
              unique := false; compareFunc := defaultCompare |} in
  exists a1 i,
    Add [5] a = Ok a1 /\
    Search 5 a1 = Ok (i, a1) /\
    Remove i a1 = Ok (5, a).
Proof.
  intros a. apply (Add_Search_Remove_round_trip 5 a).
  - valid_by_computation.
  - reflexivity.
  - vm_compute. reflexivity.
Defined.

(** ** Remove, PopLeft and PopRight *)

(** X7.  [Remove] at an index of the array returns the element there and
    leaves the array without it, whichever of the three branches is taken,
    and a sorted array stays sorted; at any other index (in particular on an
    empty array) it panics. *)
Theorem Remove_at_index (idx : Z) (a : SortedIntArray) :
  idle a -> len (array a) <= max_slice_len ->
  (0 <= idx < len (array a) ->
   exists x,
     array a !! Z.to_nat idx = Some x /\
     Remove idx a = Ok (x, set_array (delete (Z.to_nat idx) (array a)) a) /\
     (sorted (array a) -> sorted (delete (Z.to_nat idx) (array a)))) /\
  (idx < 0 \/ len (array a) <= idx -> Remove idx a = Panic).
Proof.
  intros Hidle Hmax. split.
  - intros Hidx.
    destruct (Remove_in_range idx a Hidle Hmax Hidx) as (x & Hx & E).
    exists x. split; [exact Hx |]. split; [exact E |].
    intros Hs. apply sorted_iff. apply StronglySorted_delete.
    apply sorted_iff. exact Hs.
  - intros Hout. unfold Remove.
    destruct (Lock_Unlock_idle a (array a) Hidle) as (a1 & E1 & Harr & _).
    rewrite E1. cbn [bind]. rewrite Harr.
    pose proof (len_nonneg (array a)).
    destruct (Z.eqb_spec idx 0) as [-> | _].
    + rewrite index_Panic by lia. reflexivity.
    + destruct (Z.eqb_spec idx (len (array a) - 1)) as [_ | _];
        rewrite index_Panic by lia; reflexivity.
Qed.

Lemma Remove_at_index_witness :
  let a := {| mu := rwmutex.New []; array := [3; 5; 8];
              unique := false; compareFunc := defaultCompare |} in
  Remove 1 a = Ok (5, set_array [3; 8] a) /\ Remove 3 a = Panic.
Proof.
  intros a.
  assert (Hidle : idle a) by (split; reflexivity).
  assert (Hmax : len (array a) <= max_slice_len)
    by (vm_compute; discriminate).
  split.
  - destruct (Remove_at_index 1 a Hidle Hmax) as [H _].
    destruct H as (x & Hx & E & _); [vm_compute; split; congruence |].
    cbn in Hx. injection Hx as <-. exact E.
  - apply (Remove_at_index 3 a Hidle Hmax). right. vm_compute. discriminate.
Defined.

(** X8.  On a sorted array [PopLeft] returns the smallest element and
    [PopRight] the largest, each leaving the others in place; on an empty
    array both panic. *)
Theorem PopLeft_PopRight_extremes (a : SortedIntArray) :
  valid a ->
  (array a = [] -> PopLeft a = Panic /\ PopRight a = Panic) /\
  (forall x rest, array a = x :: rest ->
     PopLeft a = Ok (x, set_array rest a) /\ Forall (fun y => x <= y) rest) /\
  (forall init x, array a = init ++ [x] ->
     PopRight a = Ok (x, set_array init a) /\ Forall (fun y => y <= x) init).
Proof.
  intros (Hidle & _ & Hs). split; [| split].
  - intros Hnil. unfold PopLeft, PopRight.
    destruct (Lock_Unlock_idle a (array a) Hidle) as (a1 & E1 & Harr & _).
    rewrite E1. cbn [bind]. rewrite Harr, Hnil. split; reflexivity.
  - intros x rest Harr0. unfold PopLeft.
    destruct (Lock_Unlock_idle a rest Hidle) as (a1 & E1 & Harr & _ & _ & E2).
    rewrite E1. cbn [bind]. rewrite Harr, Harr0. split.
    + change (index (x :: rest) 0) with (Ok (A := Z) x). cbn [bind].
      rewrite slice_from_Ok by (unfold len; cbn [length]; lia).
      cbn [bind]. change (Z.to_nat 1) with 1%nat.
      change (drop 1 (x :: rest)) with rest. rewrite E2. reflexivity.
    + rewrite Harr0 in Hs. apply StronglySorted_inv in Hs as [_ Hall].
      exact Hall.
  - intros init x Harr0. unfold PopRight.
    destruct (Lock_Unlock_idle a init Hidle) as (a1 & E1 & Harr & _ & _ & E2).
    rewrite E1. cbn [bind]. rewrite Harr, Harr0.
    assert (Hlen : len (init ++ [x]) - 1 = len init).
    { unfold len. rewrite length_app. cbn. lia. }
    rewrite Hlen. split.
    + destruct (index_Ok (init ++ [x]) (len init)) as (y & Ey & Hy).
      { unfold len. rewrite length_app. cbn. lia. }
      unfold len in Hy. rewrite Nat2Z.id in Hy.
      rewrite lookup_app_r, Nat.sub_diag in Hy by lia.
      injection Hy as <-. rewrite Ey. cbn [bind].
      rewrite slice_to_Ok by (unfold len; rewrite length_app; cbn; lia).
      cbn [bind]. unfold len. rewrite Nat2Z.id, take_app_length.
      rewrite E2. reflexivity.
    + rewrite Harr0 in Hs. apply StronglySorted_app in Hs as (H & _ & _).
      apply Forall_forall. intros y Hy. apply (H y x Hy). now left.
Qed.

Lemma PopLeft_PopRight_extremes_witness :
  let a := {| mu := rwmutex.New []; array := [3; 5; 8];
              unique := false; compareFunc := defaultCompare |} in
  PopLeft a = Ok (3, set_array [5; 8] a) /\
  PopRight a = Ok (8, set_array [3; 5] a).
Proof.
  intros a.
  assert (Hv : valid a) by valid_by_computation.
  destruct (PopLeft_PopRight_extremes a Hv) as (_ & H1 & H2).
  split.
  - apply (H1 3 [5; 8]). reflexivity.
  - apply (H2 [3; 5] 8). reflexivity.
Defined.

(** ** Sum *)

Lemma wrap_add_wrap (z v : Z) :
  GoInt.wrap (GoInt.wrap z + v) = GoInt.wrap (z + v).
Proof.
  unfold GoInt.wrap. f_equal.
  replace ((z + 2 ^ 63) mod 2 ^ 64 - 2 ^ 63 + v + 2 ^ 63)
    with ((z + 2 ^ 63) mod 2 ^ 64 + v) by ring.
  rewrite Zplus_mod_idemp_l. f_equal. ring.
Qed.

Lemma fold_add_wrap (s : list Z) :
  forall z,
    fold_left GoInt.add s (GoInt.wrap z) = GoInt.wrap (z + foldr Z.add 0 s).
Proof.
  induction s as [| v s IH]; intros z; cbn [fold_left foldr].
  - rewrite Z.add_0_r. reflexivity.
  - unfold GoInt.add at 2. rewrite wrap_add_wrap, IH. f_equal. ring.
Qed.

(** X9.  [Sum] returns the sum of the elements reduced to a 64-bit [int]:
    the exact sum whenever that is an [int], its two's complement wrap-around
    otherwise. *)
Theorem Sum_wraps (a : SortedIntArray) :
  idle a ->
  Sum a = Ok (GoInt.wrap (foldr Z.add 0 (array a)), a) /\
  (GoInt.in_range (foldr Z.add 0 (array a)) ->
   Sum a = Ok (foldr Z.add 0 (array a), a)).
Proof.
  intros Hidle.
  assert (E : Sum a = Ok (GoInt.wrap (foldr Z.add 0 (array a)), a)).
  { unfold Sum.
    destruct (RLock_RUnlock_idle a Hidle)
      as (a1 & E1 & Harr & _ & _ & _ & _ & E2).
    rewrite E1. cbn [bind]. rewrite Harr, E2. cbn [bind].
    change 0 with (GoInt.wrap 0) at 1. rewrite fold_add_wrap. reflexivity. }
  split; [exact E |].
  intros Hr. rewrite E, wrap_in_range by exact Hr. reflexivity.
Qed.

Lemma Sum_wraps_witness :
  let a := {| mu := rwmutex.New [];
              array := [1; 2 ^ 63 - 1];
              unique := false; compareFunc := defaultCompare |} in
  Sum a = Ok (- 2 ^ 63, a).
Proof.
  intros a. destruct (Sum_wraps a) as [H _].
  - split; reflexivity.
  - exact H.
Defined.

(** ** Constructors, SetArray and Sort *)

(** X10.  [NewSortedIntArrayFrom] always returns, whatever the slice: the
    new structure holds the elements of the slice in ascending order, with
    the lock free, the unique flag off (duplicates of the slice are kept)
    and the default comparison; it is in safe mode unless [unsafe] is
    given as true. *)
Theorem NewSortedIntArrayFrom_valid (s : list Z) (unsafe : list bool) :
  exists a,
    NewSortedIntArrayFrom s unsafe = Ok a /\
    valid a /\
    Permutation (array a) s /\
    unique a = false /\
    rwmutex.IsSafe (mu a) = negb (rwmutex.forced unsafe).
Proof.
  eexists. split; [reflexivity |]. cbn. split; [| split; [| split]].
  - split; [split; reflexivity |]. split; [reflexivity |].
    cbn. apply sort_Ints_sorted.
  - apply sort_Ints_perm.
  - reflexivity.
  - destruct unsafe as [| [] ?]; reflexivity.
Qed.

(** X11.  [SetArray] replaces the contents by the ascending arrangement of
    the slice it is given, leaving flag, mode and comparison alone; it does
    not enforce the unique flag: the new array has equal elements exactly
    when the slice has. *)
Theorem SetArray_sorts (s : list Z) (a : SortedIntArray) :
  idle a ->
  SetArray s a = Ok (set_array (sort_Ints s) a) /\
  sorted (sort_Ints s) /\
  Permutation (sort_Ints s) s /\
  (NoDup (sort_Ints s) <-> NoDup s).
Proof.
  intros Hidle. split; [| split; [| split]].
  - unfold SetArray.
    destruct (Lock_Unlock_idle a (sort_Ints s) Hidle)
      as (a1 & E1 & _ & _ & _ & E2).
    rewrite E1. cbn [bind]. exact E2.
  - apply sorted_iff, sort_Ints_sorted.
  - apply sort_Ints_perm.
  - rewrite (sort_Ints_perm s). reflexivity.
Qed.

Lemma SetArray_sorts_witness :
  let a := {| mu := rwmutex.New []; array := [1];
              unique := true; compareFunc := defaultCompare |} in
  SetArray [5; 3; 5] a = Ok (set_array [3; 5; 5] a).
Proof.
  intros a. destruct (SetArray_sorts [5; 3; 5] a) as [H _].
  - split; reflexivity.
  - exact H.
Defined.

(** X12.  [Sort] rearranges the array in ascending order and changes nothing
    else; on an array that is sorted already it changes nothing at all. *)
Theorem Sort_restores_order (a : SortedIntArray) :
  idle a ->
  Sort a = Ok (set_array (sort_Ints (array a)) a) /\
  sorted (sort_Ints (array a)) /\
  Permutation (sort_Ints (array a)) (array a) /\
  (sorted (array a) -> Sort a = Ok a).
Proof.
  intros Hidle.
  assert (E : Sort a = Ok (set_array (sort_Ints (array a)) a)).
  { unfold Sort.
    destruct (Lock_Unlock_idle a (sort_Ints (array a)) Hidle)
      as (a1 & E1 & Harr & _ & _ & E2).
    rewrite E1. cbn [bind]. rewrite Harr. exact E2. }
  split; [exact E |]. split; [apply sorted_iff, sort_Ints_sorted |].
  split; [apply sort_Ints_perm |].
  intros Hs. rewrite E, sort_Ints_id by (apply sorted_iff; exact Hs).
  destruct a; reflexivity.
Qed.

Lemma Sort_restores_order_witness :
  let a := {| mu := rwmutex.New []; array := [5; 3; 8];
              unique := false; compareFunc := defaultCompare |} in
  Sort a = Ok (set_array [3; 5; 8] a).
Proof.
  intros a. destruct (Sort_restores_order a) as [H _].
  - split; reflexivity.
  - exact H.
Defined.

(** ** Unique and SetUnique *)

Lemma StronglySorted_lt_le (s : list Z) :
  StronglySorted Z.lt s -> StronglySorted Z.le s /\ NoDup s.
Proof.
  induction 1 as [| x s Hs [IH1 IH2] Hx]; split; constructor; auto.
  - eapply Forall_impl; [exact Hx |]. intros y Hy. cbn in Hy. lia.
  - intros Hin. rewrite Forall_forall in Hx. specialize (Hx x Hin). lia.
Qed.

(** The loop of [Unique] on a sorted array whose part up to [i] has no
    equal elements. *)
Lemma Unique_loop_dedup (fuel : nat) :
  forall (s : list Z) (i : Z),
    StronglySorted Z.le s ->
    0 <= i < len s -> len s - i <= Z.of_nat fuel ->
    StronglySorted Z.lt (take (S (Z.to_nat i)) s) ->
    exists s',
      Unique_loop defaultCompare fuel s i = Ok s' /\
      StronglySorted Z.lt s' /\
      (forall x, x ∈ s' <-> x ∈ s).
Proof.
  induction fuel as [| fuel IH]; intros s i Hs Hi Hfuel Hpre; [lia |].
  cbn [Unique_loop].
  destruct (Z.eqb_spec i (len s - 1)) as [Hend | Hmore].
  - exists s. split; [reflexivity |]. split; [| tauto].
    rewrite take_ge in Hpre by (unfold len in *; lia). exact Hpre.
  - destruct (index_Ok s i) as (x & Ex & Hx); [lia |].
    destruct (index_Ok s (i + 1)) as (y & Ey & Hy); [lia |].
    replace (Z.to_nat (i + 1)) with (S (Z.to_nat i)) in Hy by lia.
    rewrite Ex, Ey. cbn [bind].
    assert (Hxy : x <= y).
    { apply (sorted_lookup_le s (Z.to_nat i) (S (Z.to_nat i))); auto. }
    destruct (defaultCompare_cases x y) as [[Hc Hd] | [[Hc Hd] | [Hc Hd]]];
      rewrite Hd; [| | lia].
    + (* a new element: advance *)
      change (-1 =? 0) with false. cbv iota.
      apply IH; auto; try lia.
      replace (Z.to_nat (i + 1)) with (S (Z.to_nat i)) by lia.
      rewrite (take_S_r s (S (Z.to_nat i)) y Hy).
      apply StronglySorted_app. repeat split; auto.
      * intros u w Hu Hw. apply list_elem_of_singleton in Hw. subst w.
        apply list_elem_of_lookup in Hu as [j Hj].
        apply lookup_take_Some in Hj as [Hj Hlt].
        assert (u <= x); [| lia].
        apply (sorted_lookup_le s j (Z.to_nat i)); auto. lia.
      * repeat constructor.
    + (* equal to its predecessor: dropped *)
      subst y. change (0 =? 0) with true. cbv iota.
      rewrite slice_to_Ok, slice_from_Ok by lia. cbn [bind].
      replace (Z.to_nat (i + 1 + 1)) with (S (Z.to_nat (i + 1))) by lia.
      rewrite <- delete_take_drop.
      replace (Z.to_nat (i + 1)) with (S (Z.to_nat i)) by lia.
      set (s1 := delete (S (Z.to_nat i)) s).
      assert (Hlen : len s1 = len s - 1).
      { unfold s1, len. rewrite length_delete by eauto.
        unfold len in *. lia. }
      assert (Htake : take (S (Z.to_nat i)) s1 = take (S (Z.to_nat i)) s).
      { unfold s1. rewrite delete_take_drop.
        rewrite take_app_le by (rewrite length_take; unfold len in *; lia).
        rewrite take_take. f_equal. lia. }
      destruct (IH s1 i) as (s' & E & Hs' & Hel); try lia.
      { apply StronglySorted_delete. exact Hs. }
      { rewrite Htake. exact Hpre. }
      exists s'. split; [exact E |]. split; [exact Hs' |].
      intros u. rewrite Hel.
      pose proof (delete_Permutation s (S (Z.to_nat i)) x Hy) as Hperm.
      fold s1 in Hperm.
      rewrite (elem_of_Permutation_proper u s (x :: s1) Hperm).
      rewrite elem_of_cons. split; [tauto |].
      intros [-> | Hu]; [| exact Hu].
      apply (list_elem_of_lookup_2 _ (Z.to_nat i)).
      unfold s1. rewrite list_lookup_delete_lt by lia. exact Hx.
Qed.

Lemma Unique_valid_nonempty (a : SortedIntArray) :
  valid a -> array a <> [] ->
  exists s,
    Unique a = Ok (set_array s a) /\
    StronglySorted Z.lt s /\
    (forall x, x ∈ s <-> x ∈ array a).
Proof.
  intros (Hidle & Hcf & Hs) Hne. unfold Unique.
  pose proof (nonempty_len_pos _ Hne) as Hpos.
  destruct (Lock_Unlock_idle a (array a) Hidle)
    as (a1 & E1 & Harr & _ & Hcf1 & _).
  rewrite E1. cbn [bind]. rewrite Harr, Hcf1, Hcf.
  destruct (Unique_loop_dedup (S (length (array a))) (array a) 0)
    as (s & E & Hlt & Hel); auto; try (unfold len in *; lia).
  { change (Z.to_nat 0) with 0%nat.
    destruct (array a) as [| e t]; [congruence |]. cbn.
    repeat constructor. }
  rewrite E. cbn [bind].
  destruct (Lock_Unlock_idle a s Hidle) as (a1' & E1' & _ & _ & _ & E2).
  assert (a1' = a1) by congruence. subst a1'.
  exists s. split; [exact E2 |]. split; assumption.
Qed.

(** X13.  On a non-empty sorted array [Unique] returns and leaves one copy of
    each value: the array stays sorted, no two elements are equal any more,
    and it holds exactly the values it held before. *)
Theorem Unique_removes_duplicates (a : SortedIntArray) :
  valid a -> array a <> [] ->
  exists s,
    Unique a = Ok (set_array s a) /\
    sorted s /\
    no_equal_pair defaultCompare s /\
    (forall x, x ∈ s <-> x ∈ array a).
Proof.
  intros Hv Hne.
  destruct (Unique_valid_nonempty a Hv Hne) as (s & E & Hlt & Hel).
  destruct (StronglySorted_lt_le s Hlt) as [Hle Hnd].
  exists s. split; [exact E |]. split; [apply sorted_iff; exact Hle |].
  split; [apply no_equal_pair_iff; exact Hnd | exact Hel].
Qed.

Lemma Unique_removes_duplicates_witness :
  let a := {| mu := rwmutex.New []; array := [1; 1; 2; 2; 2; 3];
              unique := false; compareFunc := defaultCompare |} in
  exists s,
    Unique a = Ok (set_array s a) /\
    sorted s /\
    no_equal_pair defaultCompare s /\
    (forall x, x ∈ s <-> x ∈ array a).
Proof.
  intros a. apply (Unique_removes_duplicates a).
  - valid_by_computation.
  - discriminate.
Defined.

(** X14.  [SetUnique] only writes the flag when it switches it off or finds
    it on already, on an empty array too; switching it on for a non-empty
    sorted array also removes the duplicates, so that afterwards no two
    elements are equal. *)
Theorem SetUnique_enforces (u : bool) (a : SortedIntArray) :
  (u = false \/ unique a = true -> SetUnique u a = Ok (set_unique u a)) /\
  (valid a -> array a <> [] -> u = true -> unique a = false ->
   exists s,
     SetUnique u a = Ok (set_array s (set_unique true a)) /\
     sorted s /\
     no_equal_pair defaultCompare s /\
     (forall x, x ∈ s <-> x ∈ array a)).
Proof.
  split.
  - intros [-> | Hu]; unfold SetUnique; [reflexivity |].
    rewrite Hu. destruct u; reflexivity.
  - intros Hv Hne -> Hu. unfold SetUnique. rewrite Hu. cbn [andb negb Bool.eqb].
    destruct (Unique_valid_nonempty (set_unique true a)) as (s & E & Hlt & Hel).
    { destruct Hv as (H1 & H2 & H3). repeat split; auto; apply H1. }
    { exact Hne. }
    destruct (StronglySorted_lt_le s Hlt) as [Hle Hnd].
    exists s. split; [exact E |]. split; [apply sorted_iff; exact Hle |].
    split; [apply no_equal_pair_iff; exact Hnd | exact Hel].
Qed.

Lemma SetUnique_enforces_witness :
  let a := {| mu := rwmutex.New []; array := [3; 3; 5];
              unique := false; compareFunc := defaultCompare |} in
  SetUnique false a = Ok (set_unique false a) /\
  exists s,
    SetUnique true a = Ok (set_array s (set_unique true a)) /\
    sorted s /\
    no_equal_pair defaultCompare s /\
    (forall x, x ∈ s <-> x ∈ array a).
Proof.
  intros a. split.
  - apply (SetUnique_enforces false a). left. reflexivity.
  - apply (SetUnique_enforces true a).
    + valid_by_computation.
    + discriminate.
    + reflexivity.
    + reflexivity.
Defined.

(** ** Merge of two structures *)

Lemma deref_Some (h : list SortedIntArray) (l : loc) (o : SortedIntArray) :
  h !! l = Some o -> deref h l = Ok o.
Proof. intros H. unfold deref. rewrite H. reflexivity. Qed.

(** X15.  [Merge] with another structure returns with both locks released
    and the other structure untouched; the receiver then holds the
    ascending arrangement of both contents, every duplicate included,
    whatever its unique flag. *)
Theorem Merge_other (h : list SortedIntArray) (a b : loc)
    (o p : SortedIntArray) :
  h !! a = Some o -> h !! b = Some p -> a <> b ->
  idle o -> idle p ->
  let o' := set_array (sort_Ints (array o ++ array p)) o in
  Merge a b h = Ok (<[a := o']> h) /\
  (<[a := o']> h) !! b = Some p /\
  sorted (array o') /\
  Permutation (array o') (array o ++ array p).
Proof.
  intros Ha Hb Hab Ho Hp o'.
  assert (Hla : (a < length h)%nat) by (eapply lookup_lt_Some; exact Ha).
  assert (Hlb : (b < length h)%nat) by (eapply lookup_lt_Some; exact Hb).
  set (s := sort_Ints (array o ++ array p)) in *.
  destruct (Lock_Unlock_idle o s Ho) as (o1 & E1 & Harr1 & _ & _ & E2).
  destruct (RLock_RUnlock_idle p Hp)
    as (p1 & E3 & Harr3 & _ & _ & _ & _ & E4).
  split; [| split; [| split]].
  - unfold Merge.
    assert (Hneq : negb (a =? b)%nat = true).
    { apply negb_true_iff, Nat.eqb_neq. exact Hab. }
    rewrite Hneq.
    (* a.mu.Lock() *)
    unfold at_loc at 1. rewrite (deref_Some h a o Ha). cbn [bind].
    rewrite E1. cbn [bind].
    (* array.mu.RLock() *)
    unfold at_loc at 1.
    rewrite (deref_Some (<[a:=o1]> h) b p)
      by (rewrite list_lookup_insert_ne by exact Hab; exact Hb).
    cbn [bind]. rewrite E3. cbn [bind].
    (* append and sort *)
    rewrite (deref_Some (<[b:=p1]> (<[a:=o1]> h)) a o1).
    2: { rewrite list_lookup_insert_ne by (intros ->; apply Hab; reflexivity).
         apply list_lookup_insert_eq. exact Hla. }
    cbn [bind].
    rewrite (deref_Some (<[b:=p1]> (<[a:=o1]> h)) b p1)
      by (apply list_lookup_insert_eq; rewrite length_insert; exact Hlb).
    cbn [bind array set_array]. rewrite Harr1, Harr3. fold s.
    change {| mu := mu o1; array := s; unique := unique o1;
              compareFunc := compareFunc o1 |} with (set_array s o1).
    (* array.mu.RUnlock(), deferred *)
    unfold at_loc at 1.
    rewrite (deref_Some _ b p1).
    2: { rewrite list_lookup_insert_ne by exact Hab.
         apply list_lookup_insert_eq. rewrite length_insert. exact Hlb. }
    cbn [bind]. rewrite E4. cbn [bind].
    (* a.mu.Unlock(), deferred *)
    unfold at_loc.
    rewrite (deref_Some _ a (set_array s o1)).
    2: { rewrite list_lookup_insert_ne by (intros ->; apply Hab; reflexivity).
         apply list_lookup_insert_eq. rewrite !length_insert. exact Hla. }
    cbn [bind]. rewrite E2. cbn [bind]. f_equal.
    apply list_eq. intros k.
    destruct (decide (k = a)) as [-> | Hka].
    + rewrite !list_lookup_insert_eq by (rewrite ?length_insert; exact Hla).
      reflexivity.
    + destruct (decide (k = b)) as [-> | Hkb].
      * rewrite !(list_lookup_insert_ne _ a b) by congruence.
        rewrite list_lookup_insert_eq
          by (rewrite ?length_insert; exact Hlb).
        symmetry. exact Hb.
      * repeat (rewrite list_lookup_insert_ne by congruence).
        reflexivity.
  - rewrite list_lookup_insert_ne by exact Hab. exact Hb.
  - apply sorted_iff, sort_Ints_sorted.
  - apply sort_Ints_perm.
Qed.

Lemma Merge_other_witness :
  let o := {| mu := rwmutex.New []; array := [1; 3; 5];
              unique := true; compareFunc := defaultCompare |} in
  let p := {| mu := rwmutex.New [true]; array := [2; 3];
              unique := false; compareFunc := defaultCompare |} in
  Merge 0%nat 1%nat [o; p] = Ok [set_array [1; 2; 3; 3; 5] o; p].
Proof.
  intros o p.
  destruct (Merge_other [o; p] 0%nat 1%nat o p) as [H _].
  - reflexivity.
  - reflexivity.
  - lia.
  - split; reflexivity.
  - split; reflexivity.
  - exact H.
Defined.

(** ** Rand and SubSlice *)

Lemma Rand_loop_exact (s : list Z) (size : Z) :
  1 <= size <= GoInt.max_int ->
  forall (perm : list Z) (i : Z) (n : list Z),
    0 <= i < size -> len n = size -> size - i <= len perm ->
    Forall (fun v => 0 <= v < len s) perm ->
    Rand_loop s size perm i n =
    Ok (take (Z.to_nat i) n ++ (pick s <$> take (Z.to_nat (size - i)) perm)).
Proof.
  intros Hsize perm. induction perm as [| v perm IH]; intros i n Hi Hn Hp Hall.
  - unfold len in Hp. cbn in Hp. lia.
  - apply Forall_cons in Hall as [Hv Hall]. cbn [Rand_loop].
    destruct (index_Ok s v Hv) as (x & E & Hx). rewrite E. cbn [bind].
    rewrite store_Ok by lia. cbn [bind].
    unfold GoInt.sub. rewrite wrap_in_range
      by (unfold GoInt.in_range, GoInt.min_int, GoInt.max_int in *; lia).
    assert (Hpick : pick s v = x) by (unfold pick; rewrite Hx; reflexivity).
    assert (Hins : <[Z.to_nat i := x]> n =
                   take (Z.to_nat i) n ++ x :: drop (S (Z.to_nat i)) n).
    { apply insert_take_drop. unfold len in *. lia. }
    replace (Z.to_nat (size - i)) with (S (Z.to_nat (size - i - 1))) by lia.
    cbn [take fmap list_fmap]. rewrite Hpick.
    destruct (Z.eqb_spec i (size - 1)) as [Hlast | Hmore].
    + rewrite Hins, drop_ge by (unfold len in *; lia).
      replace (Z.to_nat (size - i - 1)) with 0%nat by lia.
      rewrite take_0. reflexivity.
    + rewrite IH; auto; try lia.
      * replace (Z.to_nat (i + 1)) with (S (Z.to_nat i)) by lia.
        replace (size - (i + 1)) with (size - i - 1) by ring.
        rewrite Hins.
        rewrite take_app_ge
          by (rewrite length_take; unfold len in *; lia).
        rewrite length_take.
        replace (S (Z.to_nat i) - Z.to_nat i `min` length n)%nat
          with 1%nat by (unfold len in *; lia).
        cbn [take]. rewrite take_0, <- app_assoc. reflexivity.
      * unfold len in *. rewrite length_insert. exact Hn.
      * unfold len in *. cbn [length] in Hp. lia.
Qed.

Lemma pick_seqZ (s : list Z) : pick s <$> seqZ 0 (len s) = s.
Proof.
  apply list_eq. intros k. rewrite list_lookup_fmap.
  destruct (s !! k) as [x |] eqn:Hk.
  - rewrite lookup_seqZ_lt
      by (apply lookup_lt_Some in Hk; unfold len; lia).
    cbn. unfold pick. rewrite Z.add_0_l, Nat2Z.id, Hk. reflexivity.
  - rewrite lookup_seqZ_ge
      by (apply lookup_ge_None in Hk; unfold len; lia).
    reflexivity.
Qed.

(** X16.  Given the permutation of the indices that the random source
    draws, [Rand(n)] with n at least 1 returns the elements at the first n
    indices of the permutation, without changing the structure; when n is
    the length or more, the result is a rearrangement of the whole array. *)
Theorem Rand_picks (size : Z) (perm : list Z) (a : SortedIntArray) :
  idle a -> len (array a) <= max_slice_len -> 1 <= size ->
  Permutation perm (seqZ 0 (len (array a))) ->
  Rand size perm a =
  Ok (pick (array a) <$> take (Z.to_nat size) perm, a) /\
  (len (array a) <= size ->
   Permutation (pick (array a) <$> take (Z.to_nat size) perm) (array a)).
Proof.
  intros Hidle Hmax Hsize Hperm.
  pose proof (len_nonneg (array a)) as Hlen.
  assert (Hplen : len perm = len (array a)).
  { unfold len at 1. rewrite (Permutation_length Hperm), length_seqZ. lia. }
  split.
  - unfold Rand.
    destruct (RLock_RUnlock_idle a Hidle)
      as (a1 & E1 & Harr & _ & _ & _ & _ & E2).
    rewrite E1. cbn [bind]. rewrite Harr.
    set (size' := if size >? len (array a) then len (array a) else size).
    assert (Hs' : size' = Z.min size (len (array a))).
    { unfold size'. destruct (Z.gtb_spec size (len (array a))); lia. }
    assert (Htake : take (Z.to_nat size) perm = take (Z.to_nat size') perm).
    { destruct (Z.le_gt_cases size (len (array a))).
      - f_equal. lia.
      - rewrite !take_ge by (unfold len in *; lia). reflexivity. }
    rewrite Htake, make_Ok by lia. cbn [bind].
    destruct (Z.eq_dec (len (array a)) 0) as [Hz | Hnz].
    + assert (perm = []) by (apply nil_length_inv; unfold len in *; lia).
      subst perm. cbn [Rand_loop bind]. rewrite E2. cbn [bind].
      rewrite take_nil. replace (Z.to_nat size') with 0%nat by lia.
      reflexivity.
    + rewrite Rand_loop_exact; try lia.
      * cbn [bind]. rewrite E2. cbn [bind]. rewrite Z.sub_0_r.
        reflexivity.
      * unfold GoInt.max_int, max_slice_len in *. lia.
      * unfold len. rewrite length_replicate. lia.
      * apply Forall_forall. intros v Hv. rewrite Hperm in Hv.
        apply list_elem_of_lookup in Hv as [j Hj].
        apply lookup_seqZ in Hj. lia.
  - intros Hall. rewrite take_ge by (unfold len in *; lia).
    rewrite Hperm. rewrite pick_seqZ. reflexivity.
Qed.

Lemma Rand_picks_witness :
  let a := {| mu := rwmutex.New []; array := [10; 20; 30];
              unique := false; compareFunc := defaultCompare |} in
  Rand 2 [2; 0; 1] a = Ok ([30; 10], a).
Proof.
  intros a. destruct (Rand_picks 2 [2; 0; 1] a) as [H _].
  - split; reflexivity.
  - vm_compute. discriminate.
  - lia.
  - change (seqZ 0 (len (array a))) with [0; 1; 2].
    apply (perm_trans (perm_swap 0 2 [1])).
    apply perm_skip. apply perm_swap.
  - exact H.
Defined.



(** ** Get, Len and Clear *)

(** X18.  [Get] at an index of the array returns the element there and
    leaves the structure as it is; at a negative index or one at or beyond
    the length it panics. *)
Theorem Get_bounds (idx : Z) (a : SortedIntArray) :
  idle a ->
  (0 <= idx < len (array a) ->
   exists x, array a !! Z.to_nat idx = Some x /\ Get idx a = Ok (x, a)) /\
  (idx < 0 \/ len (array a) <= idx -> Get idx a = Panic).
Proof.
  intros Hidle.
  destruct (RLock_RUnlock_idle a Hidle)
    as (a1 & E1 & Harr & _ & _ & _ & _ & E2).
  split.
  - intros Hidx. destruct (index_Ok (array a) idx Hidx) as (x & Ex & Hx).
    exists x. split; [exact Hx |]. unfold Get.
    rewrite E1. cbn [bind]. rewrite Harr, Ex. cbn [bind].
    rewrite E2. reflexivity.
  - intros Hout. unfold Get. rewrite E1. cbn [bind].
    rewrite Harr, index_Panic by exact Hout. reflexivity.
Qed.

Lemma Get_bounds_witness :
  let a := {| mu := rwmutex.New []; array := [3; 5; 8];
              unique := false; compareFunc := defaultCompare |} in
  Get 2 a = Ok (8, a) /\ Get 3 a = Panic /\ Get (-1) a = Panic.
Proof.
  intros a.
  assert (Hidle : idle a) by (split; reflexivity).
  destruct (Get_bounds 2 a Hidle) as [H2 _].
  destruct (Get_bounds 3 a Hidle) as [_ H3].
  destruct (Get_bounds (-1) a Hidle) as [_ H1].
  split; [| split].
  - destruct H2 as (x & Hx & E); [vm_compute; split; congruence |].
    cbn in Hx. injection Hx as <-. exact E.
  - apply H3. right. vm_compute. discriminate.
  - apply H1. left. lia.
Defined.

(** X19.  [Clear] empties the structure and keeps its flag, mode and
    comparison; afterwards [Len] is 0, [Search] returns -1 for every value
    and [Add] starts from an empty array: with the flag off it leaves the
    added values in ascending order. *)
Theorem Clear_resets (a : SortedIntArray) :
  idle a -> compareFunc a = defaultCompare ->
  let e := set_array [] a in
  Clear a = Ok e /\
  Len e = Ok (0, e) /\
  (forall value, Search value e = Ok (-1, e)) /\
  (unique a = false ->
   forall values, Add values e = Ok (set_array (sort_Ints values) a)).
Proof.
  intros Hidle Hcf e.
  assert (Hidle' : idle e) by exact Hidle.
  split; [| split; [| split]].
  - unfold Clear.
    destruct (Lock_Unlock_idle a [] Hidle) as (a1 & E1 & Harr & _ & _ & E2).
    rewrite E1. cbn [bind].
    destruct (Z.gtb_spec (len (array a1)) 0) as [Hpos | Hzero].
    + cbn. exact E2.
    + cbn [bind].
      assert (Hnil : array a1 = []).
      { apply nil_length_inv. unfold len in Hzero. lia. }
      replace a1 with (set_array [] a1)
        by (destruct a1; cbn in Hnil; subst; reflexivity).
      exact E2.
  - unfold Len.
    destruct (RLock_RUnlock_idle e Hidle')
      as (e1 & E1 & Harr & _ & _ & _ & _ & E2).
    rewrite E1. cbn [bind]. rewrite Harr, E2. reflexivity.
  - intros value. apply Search_empty. reflexivity.
  - intros Hu values.
    assert (Hv : valid e).
    { split; [exact Hidle' |]. split; [exact Hcf | constructor]. }
    destruct (Add_content values e Hv) as (s & E & Hs & _ & Hp).
    specialize (Hp Hu). cbn in Hp. rewrite E. f_equal.
    change (set_array s e) with (set_array s a). f_equal. symmetry.
    apply (StronglySorted_unique Z.le); auto.
    + apply sort_Ints_sorted.
    + rewrite sort_Ints_perm, Hp. reflexivity.
Qed.

Lemma Clear_resets_witness :
  let a := {| mu := rwmutex.New []; array := [3; 5; 8];
              unique := false; compareFunc := defaultCompare |} in
  Clear a = Ok (set_array [] a) /\
  Len (set_array [] a) = Ok (0, set_array [] a) /\
  Search 5 (set_array [] a) = Ok (-1, set_array [] a) /\
  Add [2; 1] (set_array [] a) = Ok (set_array [1; 2] a).
Proof.
  intros a.
  destruct (Clear_resets a) as (H1 & H2 & H3 & H4).
  - split; reflexivity.
  - reflexivity.
  - split; [exact H1 |]. split; [exact H2 |]. split; [apply (H3 5) |].
    apply (H4 eq_refl [2; 1]).
Defined.
